(** * ONNX function-call substitution (torch/csrc/jit/passes/onnx/function_substitution.cpp)

    A shallow embedding of the pass that replaces calls to the deprecated
    [torch.nn.functional.interpolate] by [aten::__interpolate], inlines every
    other function and method call, and stamps scope names on the visited
    instructions.

    The IR is a pointer structure in the source.  Here nodes, blocks and
    graphs live in finite maps addressed by identifiers (a pointer is an
    identifier, a dangling pointer an identifier the map does not hold), and
    the pass threads that store explicitly.  A C++ exception ([AT_ASSERT],
    [TORCH_INTERNAL_ASSERT], [.at()], [expect<T>()], a missing attribute) is
    the outcome [Throw]; the store then stays as the mutations so far left
    it, except for what guard destructors undo.  Loops and recursion that the
    source does not bound take fuel.  [GRAPH_DUMP] and [GRAPH_UPDATE] only
    log, and with logging off do not evaluate their arguments; they are left
    out. *)

From Stdlib Require Import String Ascii.
From stdpp Require Import base option list gmap strings.

Local Open Scope string_scope.

(** ** Strings *)

(** [s.find(sub) != std::string::npos] *)
Definition contains (sub s : string) : bool :=
  match String.index 0 sub s with
  | Some _ => true
  | None => false
  end.

(** [s.empty()] *)
Definition empty_str (s : string) : bool :=
  match s with
  | EmptyString => true
  | String _ _ => false
  end.

(** ** Qualified names *)

(** Modelled from the spec: [c10::QualifiedName] (not among the sources), "a
    dotted sequence of name segments": the atoms, and the dotted string built
    from them. *)
Record QualifiedName := mkQualifiedName { atoms : list string }.

Definition qualifiedName (q : QualifiedName) : string :=
  String.concat "." (atoms q).

(** A qualified name has no empty atom: the class's constructors refuse
    one. *)
Definition wf_name (q : QualifiedName) : Prop :=
  Forall (fun atom => atom <> "") (atoms q).

Module Tidy.

(** One iteration of the loop of [TidyClassNameFromTorchScript]. *)
Definition step (out atom : string) : string :=
  let isInternalTorchAtom := String.eqb atom "__torch__" in
  let isMangleAtom := contains "__torch_mangle" atom in
  if negb isInternalTorchAtom && negb isMangleAtom then
    (if negb (empty_str out) then out +:+ "." else out) +:+ atom
  else out.

(** The segments the loop keeps. *)
Definition kept (atom : string) : bool :=
  negb (String.eqb atom "__torch__") && negb (contains "__torch_mangle" atom).

End Tidy.

Definition top_module_variable_name : string := "".

Definition TidyClassNameFromTorchScript (class_name : option QualifiedName) : string :=
  match class_name with
  | None => "UNKNOWN_CLASS"
  | Some q => fold_left Tidy.step (atoms q) ""
  end.

(** ** The IR: scopes, types, nodes, blocks, graphs *)

(** Modelled from the spec: [Scope] (ir/scope.h is not among the sources), "an
    element of a hierarchical naming stack": a root frame or a frame pushed
    on a parent ([Scope::push]). *)
Inductive Scope :=
| ScopeRoot (name : string)
| ScopePush (parent : Scope) (name : string).

(** Modelled from the spec: [Scope::isBlank], "test whether current scope is
    empty": the root frame with the empty name. *)
Definition isBlank (s : Scope) : bool :=
  match s with
  | ScopeRoot name => String.eqb name ""
  | ScopePush _ _ => false
  end.

(** Modelled from the spec: [torch::jit::Function] (not among the sources):
    its qualified name and, when it has "an inspectable graph body" (a
    [GraphFunction]), the graph that holds it. *)
Record Function := mkFunction {
  qualname : QualifiedName;
  function_graph : option nat
}.

(** Modelled from the spec: the static types the pass distinguishes (the type
    system is not among the sources): a class type with its name and methods,
    a function type, another named type, anything else. *)
Inductive Type_ :=
| ClassType (name : option QualifiedName) (methods : list (string * Function))
| FunctionType (function : Function)
| NamedType (name : option QualifiedName)
| OtherType.

(** Modelled from the spec: [Value*] (the IR is not among the sources), "an
    SSA-style definition, produced by exactly one instruction": the producing
    node and the index among its outputs. *)
Abbreviation Value := (nat * nat)%type.

(** Modelled from the spec: [Node] (the IR is not among the sources): "a kind
    tag, a sequence of input values, a sequence of output values, zero or more
    nested blocks, and an optional source-scope annotation", with the string
    attribute [attr::name] when present.  Outputs are given by their types. *)
Record Node := mkNode {
  kind : string;
  inputs : list Value;
  outputs : list Type_;
  attr_name : option string;
  scope : Scope;
  blocks : list nat
}.

(** Modelled from the spec: [Block] (the IR is not among the sources), "an
    ordered sequence of instructions": its graph, its [prim::Param] and
    [prim::Return] nodes and the instruction list in order. *)
Record Block := mkBlock {
  owningGraph : nat;
  param_node : nat;
  return_node : nat;
  block_nodes : list nat
}.

(** Modelled from the spec: [Graph] (the IR is not among the sources): its top
    block and the "ambient current-scope pointer". *)
Record Graph := mkGraph {
  block : nat;
  current_scope : Scope
}.

(** The store: every node, block and graph by identifier. *)
Record World := mkWorld {
  nodes : gmap nat Node;
  block_store : gmap nat Block;
  graphs : gmap nat Graph
}.

(** ** Failure *)

Inductive Error :=
| AssertionFailed
| OutOfRange
| BadCast
| MissingAttribute
| MissingMethod
| InvalidPointer
| Unsupported.

(** A call returns, throws, or (in this embedding) exhausts its fuel. *)
Inductive Outcome (A : Type) :=
| Ok (a : A)
| Throw (e : Error)
| OutOfFuel.
Arguments Ok {A} a.
Arguments Throw {A} e.
Arguments OutOfFuel {A}.

#[global] Instance Outcome_ret : MRet Outcome := fun A a => Ok a.
#[global] Instance Outcome_bind : MBind Outcome := fun A B f m =>
  match m with
  | Ok a => f a
  | Throw e => Throw e
  | OutOfFuel => OutOfFuel
  end.

(** Computations on the store.  A thrown error keeps the store as the
    mutations so far left it. *)
Definition M (A : Type) : Type := World -> World * Outcome A.

#[global] Instance M_ret : MRet M := fun A a w => (w, Ok a).
#[global] Instance M_bind : MBind M := fun A B f m w =>
  match m w with
  | (w', Ok a) => f a w'
  | (w', Throw e) => (w', Throw e)
  | (w', OutOfFuel) => (w', OutOfFuel)
  end.

Definition read {A} (f : World -> Outcome A) : M A := fun w => (w, f w).
Definition throw {A} (e : Error) : M A := fun w => (w, Throw e).
Definition out_of_fuel {A} : M A := fun w => (w, OutOfFuel).
Definition modify (f : World -> World) : M unit := fun w => (f w, Ok tt).

Definition AT_ASSERT (b : bool) : Outcome unit :=
  if b then Ok tt else Throw AssertionFailed.

Definition or_throw {A} (e : Error) (o : option A) : Outcome A :=
  match o with
  | Some a => Ok a
  | None => Throw e
  end.

Fixpoint for_each {A} (f : A -> M unit) (l : list A) : M unit :=
  match l with
  | [] => mret tt
  | x :: l' => f x ≫= fun _ => for_each f l'
  end.

Fixpoint map_each {A B} (f : A -> M B) (l : list A) : M (list B) :=
  match l with
  | [] => mret []
  | x :: l' => y ← f x; ys ← map_each f l'; mret (y :: ys)
  end.

Fixpoint fold_each {A S} (f : S -> A -> M S) (s : S) (l : list A) : M S :=
  match l with
  | [] => mret s
  | x :: l' => s' ← f s x; fold_each f s' l'
  end.

(** ** Reading the store *)

Definition node_at (w : World) (n : nat) : Outcome Node :=
  or_throw InvalidPointer (nodes w !! n).

Definition block_at (w : World) (b : nat) : Outcome Block :=
  or_throw InvalidPointer (block_store w !! b).

Definition graph_at (w : World) (g : nat) : Outcome Graph :=
  or_throw InvalidPointer (graphs w !! g).

(** Modelled from the spec: [n->input(i)], "indexed input access", that is
    [inputs_.at(i)]. *)
Definition input (nd : Node) (i : nat) : Outcome Value :=
  or_throw OutOfRange (inputs nd !! i).

(** Modelled from the spec: [v->type()], "static type of a value". *)
Definition type_of (w : World) (v : Value) : Outcome Type_ :=
  nd ← node_at w v.1; or_throw InvalidPointer (outputs nd !! v.2).

(** Modelled from the spec: [n->output()], the single output of a node; the
    node must have exactly one. *)
Definition output (nd : Node) : Outcome Type_ :=
  match outputs nd with
  | [t] => Ok t
  | _ => Throw AssertionFailed
  end.

(** Modelled from the spec: [n->s(attr::name)], "attribute lookup by name";
    the source asks [hasAttribute] first where absence is expected, so reading
    an absent attribute is an error. *)
Definition s_name (nd : Node) : Outcome string :=
  or_throw MissingAttribute (attr_name nd).

(** Modelled from the spec: [t->expect<c10::NamedType>()->name()],
    "cast-with-failure to named type". *)
Definition named_type_name (t : Type_) : Outcome (option QualifiedName) :=
  match t with
  | ClassType name _ => Ok name
  | FunctionType f => Ok (Some (qualname f))
  | NamedType name => Ok name
  | OtherType => Throw BadCast
  end.

(** [parent_module_type && parent_module_type->name() == "...ModuleList"] *)
Definition is_ModuleList (t : Type_) : bool :=
  match t with
  | ClassType (Some q) _ =>
      String.eqb (qualifiedName q) "__torch__.torch.nn.modules.container.ModuleList"
  | _ => false
  end.

Definition is_call (nd : Node) : bool :=
  String.eqb (kind nd) "prim::CallFunction" || String.eqb (kind nd) "prim::CallMethod".

(** ** Call-site variable names *)

(** The [while (parent_module_value)] loop of [GetCallNodeVariableName];
    [None] stands for the null pointer. *)
Fixpoint walk (fuel : nat) (w : World) (parent_module_value : option Value)
    (module_name : string) : Outcome string :=
  match parent_module_value with
  | None => Ok module_name
  | Some v =>
      match fuel with
      | 0 => OutOfFuel
      | S fuel' =>
          parent_module_type ← type_of w v;
          if is_ModuleList parent_module_type then
            parent_module_node ← node_at w v.1;
            container ← s_name parent_module_node;
            walk fuel' w (head (inputs parent_module_node))
              (container +:+ "." +:+ module_name)
          else Ok module_name
      end
  end.

Definition GetCallNodeVariableName (fuel : nat) (w : World) (call_node : nat)
    : Outcome string :=
  nd ← node_at w call_node;
  _ ← AT_ASSERT (is_call nd);
  v ← input nd 0;
  module_node ← node_at w v.1;
  match attr_name module_node with
  | None => Ok ""
  | Some module_name =>
      match inputs module_node with
      | [] => Ok module_name
      | parent_module_value :: _ => walk fuel w (Some parent_module_value) module_name
      end
  end.

(** ** Mutating the store *)

Definition set_nodes (f : gmap nat Node -> gmap nat Node) (w : World) : World :=
  mkWorld (f (nodes w)) (block_store w) (graphs w).

Definition set_blocks (f : gmap nat Block -> gmap nat Block) (w : World) : World :=
  mkWorld (nodes w) (f (block_store w)) (graphs w).

Definition set_graphs (f : gmap nat Graph -> gmap nat Graph) (w : World) : World :=
  mkWorld (nodes w) (block_store w) (f (graphs w)).

Definition with_inputs (ins : list Value) (nd : Node) : Node :=
  mkNode (kind nd) ins (outputs nd) (attr_name nd) (scope nd) (blocks nd).

Definition with_outputs (outs : list Type_) (nd : Node) : Node :=
  mkNode (kind nd) (inputs nd) outs (attr_name nd) (scope nd) (blocks nd).

Definition with_scope (s : Scope) (nd : Node) : Node :=
  mkNode (kind nd) (inputs nd) (outputs nd) (attr_name nd) s (blocks nd).

Definition with_blocks (bs : list nat) (nd : Node) : Node :=
  mkNode (kind nd) (inputs nd) (outputs nd) (attr_name nd) (scope nd) bs.

Definition with_block_nodes (f : list nat -> list nat) (b : Block) : Block :=
  mkBlock (owningGraph b) (param_node b) (return_node b) (f (block_nodes b)).

Definition get_node (n : nat) : M Node := read (fun w => node_at w n).

Definition update_node (n : nat) (f : Node -> Node) : M unit :=
  modify (set_nodes (alter f n)).

(** Modelled from the spec: [graph.set_current_scope(scope)]. *)
Definition set_current_scope (graph : nat) (s : Scope) (w : World) : World :=
  set_graphs (alter (fun g => mkGraph (block g) s) graph) w.

(** Modelled from the spec: [n->hasUses()] (the IR is not among the sources):
    some node of the store reads an output of [n]. *)
Definition hasUses (w : World) (n : nat) : bool :=
  bool_decide (map_Exists (fun _ nd => Exists (fun v : Value => v.1 = n) (inputs nd)) (nodes w)).

(** Modelled from the spec: [n->inBlockList()]: a block lists [n]. *)
Definition inBlockList (w : World) (n : nat) : bool :=
  bool_decide (map_Exists (fun _ b => n ∈ block_nodes b) (block_store w)).

(** Modelled from the spec: [n->removeInput(i)] (the IR is not among the
    sources), "detach input [i]"; the index must exist. *)
Definition removeInput (n i : nat) : M unit :=
  nd ← get_node n;
  _ ← read (fun _ => AT_ASSERT (bool_decide (i < length (inputs nd))));
  update_node n (with_inputs (delete i (inputs nd))).

(** Modelled from the spec: [n->removeAllInputs()], "remove all of [cur]'s
    inputs". *)
Definition removeAllInputs (n : nat) : M unit :=
  _ ← get_node n;
  update_node n (with_inputs []).

(** Modelled from the spec: [Node::destroy] (the IR is not among the sources).
    "Remove/destroy an instruction (only when unused)": the node must have no
    uses left; it leaves its block list and the store.  Call and constant
    instructions own no nested blocks; destroying a node that owns some is
    not covered. *)
Definition destroy (n : nat) : M unit :=
  nd ← get_node n;
  _ ← read (fun w => AT_ASSERT (negb (hasUses w n)));
  match blocks nd with
  | [] =>
      _ ← modify (set_blocks (fmap (with_block_nodes (filter (fun m => m ≠ n)))));
      modify (set_nodes (delete n))
  | _ :: _ => throw Unsupported
  end.

(** Allocation of a node or block: an identifier the store does not hold. *)
Definition alloc (nd : Node) : M nat := fun w =>
  let r := fresh (dom (nodes w)) in
  (set_nodes (insert r nd) w, Ok r).

Definition alloc_block (b : Block) : M nat := fun w =>
  let r := fresh (dom (block_store w)) in
  (set_blocks (insert r b) w, Ok r).

(** Modelled from the spec: [Graph::create(kind, inputs, num_outputs)].
    "Create instruction of a given operator kind with given inputs and output
    arity"; the new node takes the graph's current scope and is in no block. *)
Definition create (graph : nat) (k : string) (ins : list Value) (num_outputs : nat)
    : M nat :=
  g ← read (fun w => graph_at w graph);
  alloc (mkNode k ins (replicate num_outputs OtherType) None (current_scope g) []).

Fixpoint insert_after (cur n : nat) (l : list nat) : list nat :=
  match l with
  | [] => []
  | x :: l' => if decide (x = cur) then x :: n :: l' else x :: insert_after cur n l'
  end.

Fixpoint insert_before (cur n : nat) (l : list nat) : list nat :=
  match l with
  | [] => []
  | x :: l' => if decide (x = cur) then n :: x :: l' else x :: insert_before cur n l'
  end.

(** Modelled from the spec: [n->insertAfter(cur)], "insert relative to another
    instruction": [n] is in no block yet, [cur] is in one. *)
Definition insertAfter (n cur : nat) : M unit :=
  _ ← read (fun w => AT_ASSERT (negb (inBlockList w n) && inBlockList w cur));
  modify (set_blocks (fmap (with_block_nodes (insert_after cur n)))).

(** Modelled from the spec: [n->insertBefore(cur)], as [insertAfter]. *)
Definition insertBefore (n cur : nat) : M unit :=
  _ ← read (fun w => AT_ASSERT (negb (inBlockList w n) && inBlockList w cur));
  modify (set_blocks (fmap (with_block_nodes (insert_before cur n)))).

(** Modelled from the spec: [old->replaceAllUsesWith(new)] on values (the IR
    is not among the sources), "redirect all uses": every input that reads
    [old] reads [new] instead. *)
Definition redirect (old new v : Value) : Value :=
  if decide (v = old) then new else v.

Definition replaceValueUses (old new : Value) : M unit :=
  modify (set_nodes (fmap (fun nd => with_inputs (redirect old new <$> inputs nd) nd))).

(** Modelled from the spec: [cur->replaceAllUsesWith(n)] on nodes, "redirect
    all uses of an instruction's outputs to another instruction's outputs":
    output by output, the two nodes having as many. *)
Definition replaceAllUsesWith (cur n : nat) : M unit :=
  c ← get_node cur;
  nd ← get_node n;
  _ ← read (fun _ => AT_ASSERT (bool_decide (length (outputs c) = length (outputs nd))));
  for_each (fun i => replaceValueUses (cur, i) (n, i)) (seq 0 (length (outputs c))).

(** ** Inlining *)

Fixpoint map_outcome {A B} (f : A -> Outcome B) (l : list A) : Outcome (list B) :=
  match l with
  | [] => Ok []
  | x :: l' => y ← f x; ys ← map_outcome f l'; Ok (y :: ys)
  end.

(** [value_map.at(v)] of the inliner's renaming. *)
Definition value_map_at (env : gmap Value Value) (v : Value) : Outcome Value :=
  or_throw OutOfRange (env !! v).

(** Record that each output of [src] is now output of [dst]. *)
Definition bind_outputs (src dst k : nat) (env : gmap Value Value) : gmap Value Value :=
  foldr (fun i e => <[(src, i) := (dst, i)]> e) env (seq 0 k).

(** Modelled from the spec: [Block::cloneFrom] (the IR is not among the
    sources): a copy of block [src] for [graph], its instructions cloned in
    order by [clone], values renamed along the way. *)
Definition cloneBlock (clone : gmap Value Value -> nat -> M nat) (graph : nat)
    (env : gmap Value Value) (src : nat) : M nat :=
  sb ← read (fun w => block_at w src);
  sp ← get_node (param_node sb);
  g ← read (fun w => graph_at w graph);
  p ← alloc (mkNode "prim::Param" [] (outputs sp) None (current_scope g) []);
  let env1 := bind_outputs (param_node sb) p (length (outputs sp)) env in
  st ← fold_each (fun (st : gmap Value Value * list nat) n =>
                r ← clone st.1 n;
                nd ← get_node n;
                mret (bind_outputs n r (length (outputs nd)) st.1, (st.2 ++ [r])%list))
             (env1, []) (block_nodes sb);
  sr ← get_node (return_node sb);
  outs ← read (fun _ => map_outcome (value_map_at st.1) (inputs sr));
  rt ← alloc (mkNode "prim::Return" outs [] None (current_scope g) []);
  alloc_block (mkBlock graph p rt st.2).

(** Modelled from the spec: [Graph::createClone] (the IR is not among the
    sources): a copy of node [n] for [graph] with renamed inputs and cloned
    nested blocks; it keeps the scope of [n] unless that is blank, in which
    case it has the graph's current scope. *)
Fixpoint createClone (fuel : nat) (graph : nat) (env : gmap Value Value) (n : nat)
    : M nat :=
  match fuel with
  | 0 => out_of_fuel
  | S fuel' =>
      nd ← get_node n;
      g ← read (fun w => graph_at w graph);
      ins ← read (fun _ => map_outcome (value_map_at env) (inputs nd));
      r ← alloc (mkNode (kind nd) ins (outputs nd) (attr_name nd)
                   (if isBlank (scope nd) then current_scope g else scope nd) []);
      bs ← map_each (cloneBlock (createClone fuel' graph) graph env) (blocks nd);
      _ ← update_node r (with_blocks bs);
      mret r
  end.

(** Modelled from the spec: [insertGraph] (the inliner is not among the
    sources): "splice the callee's body at [cur]'s position": the callee's
    instructions are cloned in order before [cur], its parameters standing for
    the given inputs; the result is the renamed returned values. *)
Definition insertGraph (fuel : nat) (graph cur callee_block : nat) (ins : list Value)
    : M (list Value) :=
  cb ← read (fun w => block_at w callee_block);
  cp ← get_node (param_node cb);
  _ ← read (fun _ => AT_ASSERT (bool_decide (length (outputs cp) = length ins)));
  let env0 : gmap Value Value :=
    list_to_map (zip ((fun i => (param_node cb, i)) <$> seq 0 (length ins)) ins) in
  env ← fold_each (fun e n =>
                 r ← createClone fuel graph e n;
                 _ ← insertBefore r cur;
                 nd ← get_node n;
                 mret (bind_outputs n r (length (outputs nd)) e))
              env0 (block_nodes cb);
  cr ← get_node (return_node cb);
  read (fun _ => map_outcome (value_map_at env) (inputs cr)).

(** Modelled from the spec: [inlineCallTo(to_replace, callee, false)] (the
    inliner is not among the sources): "splice (inline) the callee's body at
    [cur]'s position, replacing [cur]'s outputs with the callee's returned
    values and removing [cur] from the block".  The body spliced is the one
    the callee's graph holds when the call is inlined. *)
Definition inlineCallTo (fuel : nat) (graph to_replace callee_graph : nat) : M unit :=
  cg ← read (fun w => graph_at w callee_graph);
  nd ← get_node to_replace;
  new_outputs ← insertGraph fuel graph to_replace (block cg) (inputs nd);
  old ← get_node to_replace;
  _ ← read (fun _ => AT_ASSERT (bool_decide (length new_outputs = length (outputs old))));
  _ ← for_each (fun iv : nat * Value => replaceValueUses (to_replace, iv.1) iv.2)
        (zip (seq 0 (length new_outputs)) new_outputs);
  destroy to_replace.

(** ** Scope guards *)

(** Modelled from the spec: [WithCurrentScope guard(graph, scope)] (ir.h is not
    among the sources), "a scoped acquisition primitive ... guaranteeing the
    previous scope is restored ... on every exit path": the constructor saves
    the graph's scope and installs [scope]; the destructor puts the saved
    scope back when the guard goes out of scope, however [body], the rest of
    the guard's block, ends. *)
Definition WithCurrentScope {A} (graph : nat) (s : Scope) (body : M A) : M A :=
  fun w =>
    match graph_at w graph with
    | Ok g =>
        let prev_scope := current_scope g in
        let '(w', r) := body (set_current_scope graph s w) in
        (set_current_scope graph prev_scope w', r)
    | Throw e => (w, Throw e)
    | OutOfFuel => (w, OutOfFuel)
    end.

Section Pass.

(** [onnx::ONNXScopeName::createFullScopeName] (naming.cpp is not among the
    sources), taken as a parameter: "a pure naming function" of the class
    label and the variable label. *)
Variable createFullScopeName : string -> string -> string.

(** The scope [SetScopeGuardForCall] pushes for [call_node]; the guard itself
    is [WithCurrentScope] around the rest of the caller's block. *)
Definition SetScopeGuardForCall (fuel : nat) (graph call_node : nat) : M Scope :=
  nd ← get_node call_node;
  _ ← read (fun _ => AT_ASSERT (is_call nd));
  v ← read (fun _ => input nd 0);
  t ← read (fun w => type_of w v);
  type_name ← read (fun _ => named_type_name t);
  let class_name := TidyClassNameFromTorchScript type_name in
  variable_name ← read (fun w => GetCallNodeVariableName fuel w call_node);
  let scope_name := createFullScopeName class_name variable_name in
  g ← read (fun w => graph_at w graph);
  mret (ScopePush (current_scope g) scope_name).

(** [if (!input_node_0->hasUses()) input_node_0->destroy();] *)
Definition destroy_if_unused (n : nat) : M unit :=
  used ← read (fun w => Ok (hasUses w n));
  if used : bool then mret tt else destroy n.

Definition is_interpolate (f : Function) : bool :=
  contains "torch.nn.functional" (qualifiedName (qualname f)) &&
  contains "interpolate" (qualifiedName (qualname f)).

(** The first branch of [case prim::CallFunction].  Of [copyMetadata] the
    output's type and the node's scope are kept; source ranges, debug names
    and call stacks are not modelled. *)
Definition substitute_interpolate (graph cur : nat) : M unit :=
  nd ← get_node cur;
  v ← read (fun _ => input nd 0);
  let input_node_0 := v.1 in
  _ ← removeInput cur 0;
  _ ← destroy_if_unused input_node_0;
  nd ← get_node cur;
  interpolate_node ← create graph "aten::__interpolate" (inputs nd) (length (outputs nd));
  new ← get_node interpolate_node;
  _ ← read (fun _ => output new);
  t ← read (fun _ => output nd);
  _ ← update_node interpolate_node (with_outputs [t]);
  _ ← insertAfter interpolate_node cur;
  _ ← update_node interpolate_node (with_scope (scope nd));
  _ ← replaceAllUsesWith cur interpolate_node;
  _ ← removeAllInputs cur;
  destroy cur.

(** The second branch of [case prim::CallFunction]; [recurse] is
    [functionCallSubstitution]. *)
Definition inline_function (fuel : nat) (recurse : nat -> M unit)
    (graph cur : nat) (f : Function) : M unit :=
  nd ← get_node cur;
  v ← read (fun _ => input nd 0);
  let input_node_0 := v.1 in
  _ ← removeInput cur 0;
  _ ← destroy_if_unused input_node_0;
  callee ← read (fun _ => or_throw AssertionFailed (function_graph f));
  cg ← read (fun w => graph_at w callee);
  _ ← recurse (block cg);
  inlineCallTo fuel graph cur callee.

(** Modelled from the spec: [class_type->getMethod(name)] (the type system is
    not among the sources), "a by-method-name lookup on a class type".  The
    source binds the result to a reference, [Function&], which cannot be
    null: a class without the method makes the lookup throw. *)
Definition getMethod (methods : list (string * Function)) (name : string)
    : Outcome Function :=
  or_throw MissingMethod
    (snd <$> find (fun m : string * Function => String.eqb m.1 name) methods).

(** [case prim::CallMethod] *)
Definition call_method (fuel : nat) (recurse : nat -> M unit) (graph cur : nat)
    : M unit :=
  nd ← get_node cur;
  name ← read (fun _ => s_name nd);
  v ← read (fun _ => input nd 0);
  t ← read (fun w => type_of w v);
  match t with
  | ClassType _ methods =>
      function ← read (fun _ => getMethod methods name);
      call_scope ← SetScopeGuardForCall fuel graph cur;
      WithCurrentScope graph call_scope
        match function_graph function with
        | Some callee =>
            outer ← read (fun w => graph_at w graph);
            WithCurrentScope callee (current_scope outer)
              (cg ← read (fun w => graph_at w callee);
               _ ← recurse (block cg);
               inlineCallTo fuel graph cur callee)
        | None => mret tt
        end
  | _ => mret tt
  end.

(** [case prim::CallFunction] *)
Definition call_function (fuel : nat) (recurse : nat -> M unit) (graph cur : nat)
    : M unit :=
  nd ← get_node cur;
  v ← read (fun _ => input nd 0);
  function_constant ← get_node v.1;
  _ ← read (fun _ => AT_ASSERT (String.eqb (kind function_constant) "prim::Constant"));
  t ← read (fun _ => output function_constant);
  match t with
  | FunctionType f =>
      if is_interpolate f then substitute_interpolate graph cur
      else inline_function fuel recurse graph cur f
  | _ => throw BadCast
  end.

(** [default:] *)
Definition other_node (recurse : nat -> M unit) (graph cur : nat) : M unit :=
  g ← read (fun w => graph_at w graph);
  _ ← (if isBlank (current_scope g) then mret tt
       else update_node cur (with_scope (current_scope g)));
  nd ← get_node cur;
  for_each recurse (blocks nd).

(** The body of the loop of [functionCallSubstitution] for one node. *)
Definition visit (fuel : nat) (recurse : nat -> M unit) (graph cur : nat) : M unit :=
  nd ← get_node cur;
  if String.eqb (kind nd) "prim::CallFunction" then call_function fuel recurse graph cur
  else if String.eqb (kind nd) "prim::CallMethod" then call_method fuel recurse graph cur
  else other_node recurse graph cur.

(** [functionCallSubstitution(block)].  The loop takes the successor of the
    current node before it touches the node, and the pass inserts nodes only
    between the current node's predecessor and that successor, so the nodes
    visited are those the block lists on entry. *)
Fixpoint functionCallSubstitution (fuel : nat) (b : nat) : M unit :=
  match fuel with
  | 0 => out_of_fuel
  | S fuel' =>
      blk ← read (fun w => block_at w b);
      for_each (visit fuel' (functionCallSubstitution fuel') (owningGraph blk))
        (block_nodes blk)
  end.

(** The scope the guard of [ONNXGraphTopLevelScopeGuard] installs. *)
Definition ONNXGraphTopLevelScopeGuard (graph : nat) : M Scope :=
  g ← read (fun w => graph_at w graph);
  blk ← read (fun w => block_at w (block g));
  params ← get_node (param_node blk);
  match outputs params with
  | [] => mret (current_scope g)
  | ClassType name _ :: _ =>
      let scope_name :=
        createFullScopeName (TidyClassNameFromTorchScript name) top_module_variable_name in
      mret (ScopePush (current_scope g) scope_name)
  | _ :: _ => mret (current_scope g)
  end.

Definition ONNXFunctionCallSubstitution (fuel : nat) (graph : nat) : M unit :=
  s ← ONNXGraphTopLevelScopeGuard graph;
  WithCurrentScope graph s
    (g ← read (fun w => graph_at w graph);
     functionCallSubstitution fuel (block g)).

End Pass.

(** ** Specification vocabulary *)

(** The containers met by the backward walk from a value, nearest first: the
    walk follows first inputs while the static type is the ModuleList class
    and each container carries a name. *)
Inductive container_chain (w : World) : option Value -> list string -> Prop :=
| chain_null : container_chain w None []
| chain_other (v : Value) (t : Type_) :
    type_of w v = Ok t -> is_ModuleList t = false ->
    container_chain w (Some v) []
| chain_container (v : Value) (t : Type_) (nd : Node) (c : string) (cs : list string) :
    type_of w v = Ok t -> is_ModuleList t = true ->
    nodes w !! v.1 = Some nd -> attr_name nd = Some c ->
    container_chain w (head (inputs nd)) cs ->
    container_chain w (Some v) (c :: cs).

(** The resolver never returns: whatever the fuel, the walk is still running. *)
Definition never_returns (w : World) (call_node : nat) : Prop :=
  forall fuel, GetCallNodeVariableName fuel w call_node = OutOfFuel.

(** No cycle through first inputs: following the first input of a node leads
    to a producer of smaller rank. *)
Definition first_input_ranked (w : World) (rank : nat -> nat) : Prop :=
  map_Forall
    (fun n nd => from_option (fun v : Value => rank v.1 < rank n) True (head (inputs nd)))
    (nodes w).

#[global] Instance first_input_ranked_dec w rank : Decision (first_input_ranked w rank).
Proof.
  unfold first_input_ranked. apply map_Forall_dec.
  intros n nd. destruct (head (inputs nd)); cbn; apply _.
Defined.

(** A method call the pass cannot resolve to a graph: the receiver's static
    type is not a class type, or the method found has no graph body. *)
Inductive unresolvable (w : World) (nd : Node) : Prop :=
| not_a_class (v : Value) (t : Type_) :
    inputs nd !! 0 = Some v -> type_of w v = Ok t ->
    (forall name methods, t <> ClassType name methods) ->
    unresolvable w nd
| no_graph_body (v : Value) (cname : option QualifiedName)
    (methods : list (string * Function)) (name : string) (f : Function) :
    inputs nd !! 0 = Some v -> type_of w v = Ok (ClassType cname methods) ->
    attr_name nd = Some name -> getMethod methods name = Ok f ->
    function_graph f = None ->
    unresolvable w nd.

(** Every node a block lists is in the store. *)
Definition lists_live (w : World) : Prop :=
  map_Forall (fun _ blk => Forall (fun n => is_Some (nodes w !! n)) (block_nodes blk))
    (block_store w).

(** Every input that reads node [cur] reads one of its [k] outputs. *)
Definition uses_valid (w : World) (cur k : nat) : Prop :=
  map_Forall (fun _ md => Forall (fun v : Value => v.1 = cur -> v.2 < k) (inputs md))
    (nodes w).

(** Node [c] has no use left once [cur] reads [rest] only. *)
Definition unused_without (w : World) (cur c : nat) (rest : list Value) : bool :=
  negb (hasUses (set_nodes (alter (with_inputs rest) cur) w) c).

(** The store after the substitution proper, that is after input 0 and,
    when unused, its producer are gone: [new] is the interpolate node. *)
Definition interpolated (g : Graph) (cur new : nat) (nd : Node) (w : World) : World :=
  let w1 := set_nodes (insert new (mkNode "aten::__interpolate" (inputs nd)
                         (replicate (length (outputs nd)) OtherType) None
                         (current_scope g) [])) w in
  let w2 := set_nodes (alter (with_outputs (outputs nd)) new) w1 in
  let w3 := set_blocks (fmap (with_block_nodes (insert_after cur new))) w2 in
  let w4 := set_nodes (alter (with_scope (scope nd)) new) w3 in
  let w5 := set_nodes
              (fmap (fun x => with_inputs (redirect (cur, 0) (new, 0) <$> inputs x) x)) w4 in
  let w6 := set_nodes (alter (with_inputs []) cur) w5 in
  set_nodes (delete cur)
    (set_blocks (fmap (with_block_nodes (filter (fun m => m <> cur)))) w6).


(** Relations between the store before and after a computation. *)
Definition same_graphs (w w' : World) : Prop := graphs w' = graphs w.
Definition unchanged (w w' : World) : Prop := w' = w.
Definition grows (w w' : World) : Prop := dom (nodes w) ⊆ dom (nodes w').

(** ** Example graphs *)

Module Example.

Definition scope_name (class_name variable_name : string) : string :=
  class_name +:+ "::" +:+ variable_name.

Definition name_of (l : list string) : option QualifiedName := Some (mkQualifiedName l).

Definition blank : Scope := ScopeRoot "".

Definition ModuleList : Type_ :=
  ClassType (name_of ["__torch__"; "torch"; "nn"; "modules"; "container"; "ModuleList"]) [].

Definition forward : Function :=
  mkFunction (mkQualifiedName ["__torch__"; "pkg"; "Sub"; "forward"]) (Some 1).

Definition Sub : Type_ := ClassType (name_of ["__torch__"; "pkg"; "Sub"]) [("forward", forward)].

Definition Top : Type_ := ClassType (name_of ["__torch__"; "pkg"; "Top"]) [].

Definition helper : Function :=
  mkFunction (mkQualifiedName ["__torch__"; "pkg"; "helper"]) (Some 1).

Definition interpolate : Function :=
  mkFunction (mkQualifiedName ["__torch__"; "torch"; "nn"; "functional"; "interpolate"]) None.

(** [graph(%self : Top, %x): %layers = GetAttr[name="layers"](%self);
    %3 = GetAttr[name="3"](%layers); %y = CallMethod[name="forward"](%3, %x)],
    and the body of [Sub.forward]: [graph(%self : Sub, %x): %r = relu(%x)]. *)
Definition container_call : World :=
  mkWorld
    (list_to_map
       [(100, mkNode "prim::Param" [] [Top; OtherType] None blank []);
        (1, mkNode "prim::GetAttr" [(100, 0)] [ModuleList] (Some "layers") blank []);
        (2, mkNode "prim::GetAttr" [(1, 0)] [Sub] (Some "3") blank []);
        (3, mkNode "prim::CallMethod" [(2, 0); (100, 1)] [OtherType] (Some "forward") blank []);
        (101, mkNode "prim::Return" [(3, 0)] [] None blank []);
        (110, mkNode "prim::Param" [] [Sub; OtherType] None blank []);
        (11, mkNode "aten::relu" [(110, 1)] [OtherType] None blank []);
        (111, mkNode "prim::Return" [(11, 0)] [] None blank [])])
    (list_to_map [(0, mkBlock 0 100 101 [1; 2; 3]); (1, mkBlock 1 110 111 [11])])
    (list_to_map [(0, mkGraph 0 blank); (1, mkGraph 1 blank)]).

(** The same call with the argument [%x] missing: inlining the body, which
    takes two parameters, fails an assertion. *)
Definition arity_mismatch : World :=
  mkWorld
    (list_to_map
       [(100, mkNode "prim::Param" [] [Top; OtherType] None blank []);
        (1, mkNode "prim::GetAttr" [(100, 0)] [ModuleList] (Some "layers") blank []);
        (2, mkNode "prim::GetAttr" [(1, 0)] [Sub] (Some "3") blank []);
        (3, mkNode "prim::CallMethod" [(2, 0)] [OtherType] (Some "forward") blank []);
        (101, mkNode "prim::Return" [(3, 0)] [] None blank []);
        (110, mkNode "prim::Param" [] [Sub; OtherType] None blank []);
        (11, mkNode "aten::relu" [(110, 1)] [OtherType] None blank []);
        (111, mkNode "prim::Return" [(11, 0)] [] None blank [])])
    (list_to_map [(0, mkBlock 0 100 101 [1; 2; 3]); (1, mkBlock 1 110 111 [11])])
    (list_to_map [(0, mkGraph 0 blank); (1, mkGraph 1 blank)]).

(** [graph(%layers : ModuleList, %x): %3 = GetAttr[name="3"](%layers);
    %y = CallMethod[name="forward"](%3, %x)]: the container is a graph input,
    and the [prim::Param] node that produces it has no name. *)
Definition container_param : World :=
  mkWorld
    (list_to_map
       [(100, mkNode "prim::Param" [] [ModuleList; OtherType] None blank []);
        (2, mkNode "prim::GetAttr" [(100, 0)] [Sub] (Some "3") blank []);
        (3, mkNode "prim::CallMethod" [(2, 0); (100, 1)] [OtherType] (Some "forward") blank []);
        (101, mkNode "prim::Return" [(3, 0)] [] None blank [])])
    (list_to_map [(0, mkBlock 0 100 101 [2; 3])])
    (list_to_map [(0, mkGraph 0 blank)]).

(** Two containers that each list the other as first input. *)
Definition container_cycle : World :=
  mkWorld
    (list_to_map
       [(1, mkNode "prim::GetAttr" [(2, 0)] [ModuleList] (Some "a") blank []);
        (2, mkNode "prim::GetAttr" [(1, 0)] [ModuleList] (Some "b") blank []);
        (3, mkNode "prim::CallMethod" [(1, 0)] [OtherType] (Some "forward") blank [])])
    (list_to_map [(0, mkBlock 0 100 101 [1; 2; 3])])
    (list_to_map [(0, mkGraph 0 blank)]).

(** [graph(%x): %f = Constant[interpolate](); %y = CallFunction(%f, %x);
    %z = relu(%y)] *)
Definition interpolate_call : World :=
  mkWorld
    (list_to_map
       [(100, mkNode "prim::Param" [] [OtherType] None blank []);
        (4, mkNode "prim::Constant" [] [FunctionType interpolate] None blank []);
        (5, mkNode "prim::CallFunction" [(4, 0); (100, 0)] [OtherType] None blank []);
        (6, mkNode "aten::relu" [(5, 0)] [OtherType] None blank []);
        (101, mkNode "prim::Return" [(6, 0)] [] None blank [])])
    (list_to_map [(0, mkBlock 0 100 101 [4; 5; 6])])
    (list_to_map [(0, mkGraph 0 blank)]).

(** [graph(%self : Top, %x): %f = Constant[helper](); %y = CallFunction(%f, %x)],
    and the body of [helper]: [graph(%x): %r = relu(%x)]. *)
Definition function_call : World :=
  mkWorld
    (list_to_map
       [(100, mkNode "prim::Param" [] [Top; OtherType] None blank []);
        (4, mkNode "prim::Constant" [] [FunctionType helper] None blank []);
        (5, mkNode "prim::CallFunction" [(4, 0); (100, 1)] [OtherType] None blank []);
        (101, mkNode "prim::Return" [(5, 0)] [] None blank []);
        (110, mkNode "prim::Param" [] [OtherType] None blank []);
        (11, mkNode "aten::relu" [(110, 0)] [OtherType] None blank []);
        (111, mkNode "prim::Return" [(11, 0)] [] None blank [])])
    (list_to_map [(0, mkBlock 0 100 101 [4; 5]); (1, mkBlock 1 110 111 [11])])
    (list_to_map [(0, mkGraph 0 blank); (1, mkGraph 1 blank)]).

(** [graph(%t, %x): %y = CallMethod[name="forward"](%t, %x)] with [%t] a
    tensor, not an object of a class. *)
Definition tensor_method : World :=
  mkWorld
    (list_to_map
       [(100, mkNode "prim::Param" [] [OtherType; OtherType] None blank []);
        (3, mkNode "prim::CallMethod" [(100, 0); (100, 1)] [OtherType] (Some "forward") blank []);
        (101, mkNode "prim::Return" [(3, 0)] [] None blank [])])
    (list_to_map [(0, mkBlock 0 100 101 [3])])
    (list_to_map [(0, mkGraph 0 blank)]).

(** [graph(%self : Top, %x): %y = CallMethod[name="forward"](%self, %x)]:
    class [Top] defines no method [forward]. *)
Definition unknown_method : World :=
  mkWorld
    (list_to_map
       [(100, mkNode "prim::Param" [] [Top; OtherType] None blank []);
        (3, mkNode "prim::CallMethod" [(100, 0); (100, 1)] [OtherType] (Some "forward") blank []);
        (101, mkNode "prim::Return" [(3, 0)] [] None blank [])])
    (list_to_map [(0, mkBlock 0 100 101 [3])])
    (list_to_map [(0, mkGraph 0 blank)]).

(** A rank for [container_call]: parameters first. *)
Definition param_rank (n : nat) : nat :=
  match n with
  | 100 | 110 => 0
  | _ => n
  end.

End Example.


(** ** Further vocabulary *)

(** An instruction the [switch] of [functionCallSubstitution] sends to
    [default:]. *)
Definition is_plain (nd : Node) : bool :=
  negb (String.eqb (kind nd) "prim::CallFunction") &&
  negb (String.eqb (kind nd) "prim::CallMethod").

(** Block [b] belongs to [graph] and, with the blocks nested in it down to
    depth [n], lists only live instructions that are not calls. *)
Fixpoint call_free (n : nat) (w : World) (graph b : nat) : bool :=
  match n with
  | 0 => false
  | S n' =>
      match block_store w !! b with
      | Some blk =>
          bool_decide (owningGraph blk = graph) &&
          forallb (fun x =>
                     match nodes w !! x with
                     | Some nd => is_plain nd && forallb (call_free n' w graph) (blocks nd)
                     | None => false
                     end) (block_nodes blk)
      | None => false
      end
  end.

(** The instructions reached from block [b] through nested blocks, each
    before the instructions of its own blocks. *)
Fixpoint visited (n : nat) (w : World) (b : nat) : list nat :=
  match n with
  | 0 => []
  | S n' =>
      match block_store w !! b with
      | Some blk =>
          flat_map (fun x =>
                      x :: match nodes w !! x with
                           | Some nd => flat_map (visited n' w) (blocks nd)
                           | None => []
                           end) (block_nodes blk)
      | None => []
      end
  end.

(** [cur->setScope(s)] on each of [l], unless [s] is blank. *)
Definition stamp (s : Scope) (l : list nat) (w : World) : World :=
  set_nodes (fun m => foldl (fun m x => if isBlank s then m else alter (with_scope s) x m) m l) w.

(** Two stores that differ in the scopes of their nodes only. *)
Definition same_shape (w w' : World) : Prop :=
  block_store w' = block_store w /\ graphs w' = graphs w /\
  with_scope (ScopeRoot "") <$> nodes w' = with_scope (ScopeRoot "") <$> nodes w.

(** The store once the function input [(c, _)] is detached from the call
    [cur], which keeps the inputs [rest], and the constant [c], if nothing
    reads it any more, is destroyed. *)
Definition detached (w : World) (cur c : nat) (rest : list Value) : World :=
  if unused_without w cur c rest
  then set_nodes (delete c)
         (set_blocks (fmap (with_block_nodes (filter (fun m => m <> c))))
            (set_nodes (alter (with_inputs rest) cur) w))
  else set_nodes (alter (with_inputs rest) cur) w.

(** The scope frame of a call is current in the caller's and in the callee's
    graph. *)
Definition under_scope (graph callee : nat) (s : Scope) (w : World) : World :=
  set_current_scope callee s (set_current_scope graph s w).

(** Both guards are gone: the callee's graph, then the caller's, have the
    scopes of [cg] and [g] again. *)
Definition scopes_back (graph callee : nat) (g cg : Graph) (w : World) : World :=
  set_current_scope graph (current_scope g) (set_current_scope callee (current_scope cg) w).

(** A call the pass inlines: a function call whose callee is not the
    interpolate function, or a method call on an object of a class, resolved
    to a method with a graph body, whose variable name the resolver gives.
    [entry] is the store in which the pass turns to the callee's body: for a
    function call the store with the function input detached, for a method
    call the store with the call's frame as current scope of both graphs.
    [leave] is what the guards do when the handling ends. *)
Inductive inlined_call (createFullScopeName : string -> string -> string) (fuel : nat)
    (w : World) (graph cur : nat) (nd : Node) (callee : nat) (cg : Graph)
    : World -> (World -> World) -> Prop :=
| inlined_function (c i : nat) (rest : list Value) (cn : Node) (f : Function) :
    kind nd = "prim::CallFunction" -> inputs nd = (c, i) :: rest ->
    nodes w !! c = Some cn -> kind cn = "prim::Constant" ->
    outputs cn = [FunctionType f] -> blocks cn = [] ->
    is_interpolate f = false -> function_graph f = Some callee ->
    graphs w !! callee = Some cg ->
    inlined_call createFullScopeName fuel w graph cur nd callee cg
      (detached w cur c rest) (fun w' => w')
| inlined_method (v : Value) (cname : option QualifiedName)
    (methods : list (string * Function)) (name : string) (f : Function) (g : Graph)
    (variable_name : string) :
    kind nd = "prim::CallMethod" -> attr_name nd = Some name ->
    inputs nd !! 0 = Some v -> type_of w v = Ok (ClassType cname methods) ->
    getMethod methods name = Ok f -> function_graph f = Some callee ->
    graphs w !! graph = Some g -> graphs w !! callee = Some cg ->
    GetCallNodeVariableName fuel w cur = Ok variable_name ->
    inlined_call createFullScopeName fuel w graph cur nd callee cg
      (under_scope graph callee
         (ScopePush (current_scope g)
            (createFullScopeName (TidyClassNameFromTorchScript cname) variable_name)) w)
      (scopes_back graph callee g cg).






(** Every node of [w'] that [w] does not hold carries the scope [s]. *)
Definition adds_scoped (s : Scope) (w w' : World) : Prop :=
  forall x nd', nodes w !! x = None -> nodes w' !! x = Some nd' -> scope nd' = s.

(** A store grown by allocation only, every new node carrying [s]. *)
Definition extends_scoped (s : Scope) (w w' : World) : Prop :=
  nodes w ⊆ nodes w' /\ block_store w ⊆ block_store w' /\ graphs w' = graphs w /\
  adds_scoped s w w'.

(** The scope the top-level guard installs on a graph whose parameters have
    the types [params]. *)
Definition top_level_scope (createFullScopeName : string -> string -> string)
    (g : Graph) (params : list Type_) : Scope :=
  match params with
  | ClassType name _ :: _ =>
      ScopePush (current_scope g)
        (createFullScopeName (TidyClassNameFromTorchScript name) top_module_variable_name)
  | _ => current_scope g
  end.

(** [v] is an output of a node of the store. *)
Definition has_type (w : World) (v : Value) : bool :=
  match type_of w v with
  | Ok _ => true
  | _ => false
  end.

(** Every input of every node reads an output that exists. *)
Definition refs_valid (w : World) : Prop :=
  map_Forall (fun _ nd => Forall (fun v => has_type w v = true) (inputs nd)) (nodes w).

#[global] Instance refs_valid_dec w : Decision (refs_valid w).
Proof. unfold refs_valid. apply _. Defined.

(** The backward walk from a value comes to a producer of ModuleList type
    that has no "name" attribute: before it the walk passes only producers of
    ModuleList type that have one, following their first inputs. *)
Inductive unnamed_on_walk (w : World) : option Value -> Prop :=
| unnamed_here (v : Value) (t : Type_) (nd : Node) :
    type_of w v = Ok t -> is_ModuleList t = true ->
    nodes w !! v.1 = Some nd -> attr_name nd = None ->
    unnamed_on_walk w (Some v)
| unnamed_further (v : Value) (t : Type_) (nd : Node) (c : string) :
    type_of w v = Ok t -> is_ModuleList t = true ->
    nodes w !! v.1 = Some nd -> attr_name nd = Some c ->
    unnamed_on_walk w (head (inputs nd)) ->
    unnamed_on_walk w (Some v).

(** The walk the resolver makes for [call_node] meets such a producer. *)
Definition meets_unnamed_container (w : World) (call_node : nat) : Prop :=
  exists nd v module_node module_name,
    nodes w !! call_node = Some nd /\ inputs nd !! 0 = Some v /\
    nodes w !! v.1 = Some module_node /\ attr_name module_node = Some module_name /\
    unnamed_on_walk w (head (inputs module_node)).

(** A list of segments without its leading empty segments. *)
Fixpoint drop_empty (l : list string) : list string :=
  match l with
  | [] => []
  | a :: l' => if empty_str a then drop_empty l' else l
  end.

(** [s] ends with [a]. *)
Definition ends_with (a s : string) : Prop := exists p, s = p +:+ a.

(** [sub] occurs in [s]. *)
Definition occurs_in (sub s : string) : Prop := exists p q, s = p +:+ sub +:+ q.


(** ** Further example graphs *)

Module Sample.

Definition builtin : Function :=
  mkFunction (mkQualifiedName ["__torch__"; "pkg"; "op"]) None.

(** [graph(%self : Top, %c): %a = relu(%c);
    %i = If(%a) { block1: %b = relu(%a) -> (%b)  block2: -> (%a) };
    %r = add(%i, %a)] *)
Definition nested : World :=
  mkWorld
    (list_to_map
       [(100, mkNode "prim::Param" [] [Example.Top; OtherType] None Example.blank []);
        (1, mkNode "aten::relu" [(100, 1)] [OtherType] None Example.blank []);
        (2, mkNode "prim::If" [(1, 0)] [OtherType] None Example.blank [1; 2]);
        (120, mkNode "prim::Param" [] [] None Example.blank []);
        (20, mkNode "aten::relu" [(1, 0)] [OtherType] None Example.blank []);
        (121, mkNode "prim::Return" [(20, 0)] [] None Example.blank []);
        (122, mkNode "prim::Param" [] [] None Example.blank []);
        (123, mkNode "prim::Return" [(1, 0)] [] None Example.blank []);
        (3, mkNode "aten::add" [(2, 0); (1, 0)] [OtherType] None Example.blank []);
        (101, mkNode "prim::Return" [(3, 0)] [] None Example.blank [])])
    (list_to_map
       [(0, mkBlock 0 100 101 [1; 2; 3]); (1, mkBlock 0 120 121 [20]);
        (2, mkBlock 0 122 123 [])])
    (list_to_map [(0, mkGraph 0 Example.blank)]).

(** [graph(%x): %y = relu(%x)]: no module, no scope. *)
Definition tensor_graph : World :=
  mkWorld
    (list_to_map
       [(100, mkNode "prim::Param" [] [OtherType] None Example.blank []);
        (1, mkNode "aten::relu" [(100, 0)] [OtherType] None Example.blank []);
        (101, mkNode "prim::Return" [(1, 0)] [] None Example.blank [])])
    (list_to_map [(0, mkBlock 0 100 101 [1])])
    (list_to_map [(0, mkGraph 0 Example.blank)]).

(** [graph(%x): %f = Constant[op](); %y = CallFunction(%f, %x)] with [op] a
    function that has no graph body. *)
Definition builtin_call : World :=
  mkWorld
    (list_to_map
       [(100, mkNode "prim::Param" [] [OtherType] None Example.blank []);
        (4, mkNode "prim::Constant" [] [FunctionType builtin] None Example.blank []);
        (5, mkNode "prim::CallFunction" [(4, 0); (100, 0)] [OtherType] None Example.blank []);
        (101, mkNode "prim::Return" [(5, 0)] [] None Example.blank [])])
    (list_to_map [(0, mkBlock 0 100 101 [4; 5])])
    (list_to_map [(0, mkGraph 0 Example.blank)]).

(** [graph(%f, %x): %y = CallFunction(%f, %x)]: the function called is an
    argument of the graph, not a constant. *)
Definition call_of_argument : World :=
  mkWorld
    (list_to_map
       [(100, mkNode "prim::Param" [] [FunctionType Example.helper; OtherType] None
                Example.blank []);
        (5, mkNode "prim::CallFunction" [(100, 0); (100, 1)] [OtherType] None Example.blank []);
        (101, mkNode "prim::Return" [(5, 0)] [] None Example.blank [])])
    (list_to_map [(0, mkBlock 0 100 101 [5])])
    (list_to_map [(0, mkGraph 0 Example.blank)]).

(** [graph(%t): %y = CallMethod(%t)]: the call carries no method name. *)
Definition nameless_call : World :=
  mkWorld
    (list_to_map
       [(100, mkNode "prim::Param" [] [OtherType] None Example.blank []);
        (3, mkNode "prim::CallMethod" [(100, 0)] [OtherType] None Example.blank []);
        (101, mkNode "prim::Return" [(3, 0)] [] None Example.blank [])])
    (list_to_map [(0, mkBlock 0 100 101 [3])])
    (list_to_map [(0, mkGraph 0 Example.blank)]).







End Sample.
(** * Properties *)

(** ** Qualified-name tidying *)

Lemma empty_str_true (s : string) : empty_str s = true <-> s = "".
Proof. destruct s; simpl; split; congruence. Qed.

Lemma empty_str_append (a b : string) : b <> "" -> empty_str (a +:+ b) = false.
Proof. destruct a, b; simpl; congruence. Qed.

Lemma append_assoc (a b c : string) : (a +:+ b) +:+ c = a +:+ (b +:+ c).
Proof.
  induction a as [|x a IH]; [reflexivity|].
  change (String x ((a +:+ b) +:+ c) = String x (a +:+ (b +:+ c))).
  now rewrite IH.
Qed.

Lemma tidy_step_kept (out a : string) :
  Tidy.step out a =
    if Tidy.kept a then (if empty_str out then a else out +:+ "." +:+ a) else out.
Proof.
  unfold Tidy.step, Tidy.kept.
  destruct (negb _ && negb _); [|reflexivity].
  destruct (empty_str out) eqn:He; cbn [negb].
  - apply empty_str_true in He. now subst.
  - apply append_assoc.
Qed.

Lemma tidy_fold (l : list string) :
  Forall (fun atom => atom <> "") l ->
  forall out,
    fold_left Tidy.step l out =
      match filter (fun a => Tidy.kept a = true) l with
      | [] => out
      | _ :: _ =>
          if empty_str out
          then String.concat "." (filter (fun a => Tidy.kept a = true) l)
          else out +:+ "." +:+ String.concat "." (filter (fun a => Tidy.kept a = true) l)
      end.
Proof.
  induction 1 as [|a l Ha Hl IH]; intros out; [reflexivity|].
  cbn [fold_left]. rewrite IH, tidy_step_kept, filter_cons.
  destruct (Tidy.kept a) eqn:Hk.
  - rewrite decide_True by done.
    destruct (filter _ l) as [|b l'] eqn:Hf; [reflexivity|].
    cbn [String.concat].
    destruct (empty_str out) eqn:He.
    + destruct a; [done | reflexivity].
    + rewrite empty_str_append; [now rewrite !append_assoc|].
      destruct a; [done | discriminate].
  - rewrite decide_False by (intros ?; congruence). reflexivity.
Qed.

Lemma filter_all_kept (l : list string) :
  Forall (fun a => Tidy.kept a = true) l -> filter (fun a => Tidy.kept a = true) l = l.
Proof.
  induction 1 as [|a l Ha Hl IH]; [reflexivity|].
  rewrite filter_cons, decide_True by done. now rewrite IH.
Qed.

(** C6 (as amended): tidying an absent name gives "UNKNOWN_CLASS"; tidying a
    qualified name joins with "." exactly the segments that are neither
    "__torch__" nor contain "__torch_mangle", in their original order, so a
    name without such segments tidies to its dotted form.  A segment that
    contains the marker is dropped whole: "__torch__.pkg.M" tidies to
    "pkg.M", "__torch__.pkg.M__torch_mangle_3" to "pkg", and
    "__torch__.pkg.___torch_mangle_3.M" to "pkg.M". *)
Theorem tidy_class_name (q : QualifiedName) (Hq : wf_name q) :
  TidyClassNameFromTorchScript None = "UNKNOWN_CLASS" /\
  TidyClassNameFromTorchScript (Some q) =
    String.concat "." (filter (fun a => Tidy.kept a = true) (atoms q)) /\
  (Forall (fun a => Tidy.kept a = true) (atoms q) ->
   TidyClassNameFromTorchScript (Some q) = qualifiedName q) /\
  TidyClassNameFromTorchScript (Some (mkQualifiedName ["__torch__"; "pkg"; "M"])) = "pkg.M" /\
  TidyClassNameFromTorchScript
    (Some (mkQualifiedName ["__torch__"; "pkg"; "M__torch_mangle_3"])) = "pkg" /\
  TidyClassNameFromTorchScript
    (Some (mkQualifiedName ["__torch__"; "pkg"; "___torch_mangle_3"; "M"])) = "pkg.M".
Proof.
  assert (Hjoin : TidyClassNameFromTorchScript (Some q) =
                  String.concat "." (filter (fun a => Tidy.kept a = true) (atoms q))).
  { unfold TidyClassNameFromTorchScript. rewrite (tidy_fold _ Hq).
    destruct (filter _ (atoms q)); reflexivity. }
  repeat split; try reflexivity; [exact Hjoin|].
  intros Hall. rewrite Hjoin, filter_all_kept by exact Hall. reflexivity.
Qed.

Lemma tidy_class_name_witness :
  TidyClassNameFromTorchScript (Some (mkQualifiedName ["__torch__"; "pkg"; "M"])) =
    String.concat "." (filter (fun a => Tidy.kept a = true) ["__torch__"; "pkg"; "M"]).
Proof.
  refine (proj1 (proj2 (tidy_class_name (mkQualifiedName ["__torch__"; "pkg"; "M"]) _))).
  unfold wf_name; simpl. repeat constructor; discriminate.
Defined.

(** C6, as first stated, fails: a segment carrying the mangling marker is not
    stripped of it but dropped, so the mangled variant does not tidy to
    "pkg.M". *)
Lemma tidy_mangled_segment_dropped :
  TidyClassNameFromTorchScript
    (Some (mkQualifiedName ["__torch__"; "pkg"; "M__torch_mangle_3"])) = "pkg" /\
  TidyClassNameFromTorchScript
    (Some (mkQualifiedName ["__torch__"; "pkg"; "M__torch_mangle_3"])) <> "pkg.M".
Proof. split; [reflexivity | vm_compute; discriminate]. Qed.

(** ** Call-site variable names *)


Lemma concat_snoc_join (l : list string) (a b : string) :
  String.concat "." (l ++ [a +:+ "." +:+ b]) = String.concat "." (l ++ [a; b]).
Proof.
  induction l as [|x l IH]; [reflexivity|].
  destruct l as [|y l]; [reflexivity|].
  change (x +:+ "." +:+ String.concat "." ((y :: l) ++ [a +:+ "." +:+ b]) =
          x +:+ "." +:+ String.concat "." ((y :: l) ++ [a; b])).
  now rewrite IH.
Qed.

Lemma walk_chain (w : World) (pv : option Value) (cs : list string) :
  container_chain w pv cs ->
  forall fuel module_name,
    length cs < fuel ->
    walk fuel w pv module_name = Ok (String.concat "." (rev cs ++ [module_name])).
Proof.
  induction 1 as [|v t Ht Hml|v t nd c cs Ht Hml Hnd Hc Hch IH]; intros fuel nm Hfuel.
  - destruct fuel; reflexivity.
  - destruct fuel as [|fuel]; [simpl in Hfuel; lia|].
    cbn [walk]. rewrite Ht. cbn. now rewrite Hml.
  - destruct fuel as [|fuel]; [simpl in Hfuel; lia|].
    cbn [walk]. rewrite Ht. cbn. rewrite Hml.
    unfold node_at. rewrite Hnd. cbn [or_throw mbind Outcome_bind].
    unfold s_name. rewrite Hc. cbn [or_throw mbind Outcome_bind].
    rewrite IH by (simpl in Hfuel; lia).
    rewrite concat_snoc_join. cbn [rev]. now rewrite <- app_assoc.
Qed.

(** C5: the variable resolver returns the empty string when the producer of
    the call's first input has no "name" attribute; returns that producer's
    name when the producer has no inputs; and otherwise walks back through the
    producers whose static type is the ModuleList class, prepending each
    container's name and a ".": with containers [cs] (nearest first) the
    result is the dotted path of the containers, outermost first, followed by
    the producer's name. *)
Theorem variable_name_resolution (w : World) (call_node : nat) (nd module_node : Node)
    (v : Value)
    (Hcall : nodes w !! call_node = Some nd)
    (Hkind : is_call nd = true)
    (Hinput : inputs nd !! 0 = Some v)
    (Hmodule : nodes w !! v.1 = Some module_node) :
  (attr_name module_node = None ->
   forall fuel, GetCallNodeVariableName fuel w call_node = Ok "") /\
  (forall module_name,
     attr_name module_node = Some module_name -> inputs module_node = [] ->
     forall fuel, GetCallNodeVariableName fuel w call_node = Ok module_name) /\
  (forall module_name cs fuel,
     attr_name module_node = Some module_name -> inputs module_node <> [] ->
     container_chain w (head (inputs module_node)) cs ->
     length cs < fuel ->
     GetCallNodeVariableName fuel w call_node =
       Ok (String.concat "." (rev cs ++ [module_name]))).
Proof.
  unfold GetCallNodeVariableName, node_at, input.
  rewrite Hcall. cbn. rewrite Hkind, Hinput. cbn. rewrite Hmodule. cbn.
  split; [|split].
  - intros ->. reflexivity.
  - intros nm -> ->. reflexivity.
  - intros nm cs fuel -> Hne Hch Hfuel.
    destruct (inputs module_node) as [|pv rest] eqn:Hin; [done|].
    exact (walk_chain _ _ _ Hch _ _ Hfuel).
Qed.

(** A call on element "3" of the container "layers" resolves to "layers.3". *)
Lemma variable_name_resolution_witness :
  GetCallNodeVariableName 2 Example.container_call 3 = Ok "layers.3".
Proof.
  refine (proj2 (proj2 (variable_name_resolution Example.container_call 3
            (mkNode "prim::CallMethod" [(2, 0); (100, 1)] [OtherType] (Some "forward")
               Example.blank [])
            (mkNode "prim::GetAttr" [(1, 0)] [Example.Sub] (Some "3") Example.blank [])
            (2, 0) eq_refl eq_refl eq_refl eq_refl)) "3" ["layers"] 2 eq_refl _ _ _).
  - discriminate.
  - eapply chain_container; [reflexivity | reflexivity | reflexivity | reflexivity |].
    eapply chain_other; reflexivity.
  - simpl. lia.
Defined.

Lemma walk_step (fuel : nat) (w : World) (v : Value) (nm : string) :
  walk (S fuel) w (Some v) nm =
    match type_of w v with
    | Ok t =>
        if is_ModuleList t then
          match nodes w !! v.1 with
          | Some nd =>
              match attr_name nd with
              | Some c => walk fuel w (head (inputs nd)) (c +:+ "." +:+ nm)
              | None => Throw MissingAttribute
              end
          | None => Throw InvalidPointer
          end
        else Ok nm
    | Throw e => Throw e
    | OutOfFuel => OutOfFuel
    end.
Proof.
  cbn [walk]. destruct (type_of w v) as [t|e|]; cbn [mbind Outcome_bind]; try reflexivity.
  destruct (is_ModuleList t); [|reflexivity].
  unfold node_at, s_name. destruct (nodes w !! v.1) as [nd|]; [|reflexivity].
  cbn [or_throw mbind Outcome_bind]. destruct (attr_name nd); reflexivity.
Qed.

Lemma type_of_fuel_free (w : World) (v : Value) : type_of w v <> OutOfFuel.
Proof.
  unfold type_of, node_at. destruct (nodes w !! v.1) as [nd|]; [|discriminate].
  cbn [or_throw mbind Outcome_bind]. destruct (outputs nd !! v.2); discriminate.
Qed.

Lemma walk_terminates_from (w : World) (rank : nat -> nat) (Hacyclic : first_input_ranked w rank) :
  forall k pv nm,
    from_option (fun v : Value => rank v.1 < k) True pv ->
    exists r, r <> OutOfFuel /\ forall fuel, k <= fuel -> walk fuel w pv nm = r.
Proof.
  induction k as [|k IH]; intros pv nm Hk.
  - destruct pv as [v|]; [cbn in Hk; lia|].
    exists (Ok nm). split; [discriminate|]. intros [|fuel] _; reflexivity.
  - destruct pv as [v|]; [|exists (Ok nm); split; [discriminate|]; intros [|fuel] _; reflexivity].
    cbn in Hk.
    assert (Hstep := fun fuel => walk_step fuel w v nm).
    pose proof (type_of_fuel_free w v) as Hty.
    destruct (type_of w v) as [t|e|]; [| |done].
    + destruct (is_ModuleList t).
      * destruct (nodes w !! v.1) as [nd|] eqn:Hnd.
        -- destruct (attr_name nd) as [c|].
           ++ destruct (IH (head (inputs nd)) (c +:+ "." +:+ nm)) as (r & Hr & Hw).
              { specialize (Hacyclic _ _ Hnd). cbn in Hacyclic.
                destruct (head (inputs nd)) as [v'|]; [|exact I].
                cbn in *. lia. }
              exists r. split; [exact Hr|]. intros [|fuel] Hf; [lia|].
              rewrite Hstep. apply Hw. lia.
           ++ exists (Throw MissingAttribute). split; [discriminate|].
              intros [|fuel] Hf; [lia|]. now rewrite Hstep.
        -- exists (Throw InvalidPointer). split; [discriminate|].
           intros [|fuel] Hf; [lia|]. now rewrite Hstep.
      * exists (Ok nm). split; [discriminate|]. intros [|fuel] Hf; [lia|]. now rewrite Hstep.
    + exists (Throw e). split; [discriminate|]. intros [|fuel] Hf; [lia|]. now rewrite Hstep.
Qed.

(** C9 (as amended): on a store without a cycle through first inputs, as every
    SSA graph is, the resolver comes to an end: from some amount of fuel on it
    gives one and the same result, a name or a thrown error.  The walk stops
    when there is no further input to follow and when the static type is not
    the container class. *)
Theorem walk_terminates (w : World) (rank : nat -> nat) (call_node : nat)
    (Hacyclic : first_input_ranked w rank) :
  (exists fuel r, r <> OutOfFuel /\
     forall fuel', fuel <= fuel' -> GetCallNodeVariableName fuel' w call_node = r) /\
  (forall fuel module_name, walk fuel w None module_name = Ok module_name) /\
  (forall fuel v t module_name,
     type_of w v = Ok t -> is_ModuleList t = false ->
     walk (S fuel) w (Some v) module_name = Ok module_name).
Proof.
  split; [|split].
  - unfold GetCallNodeVariableName.
    destruct (node_at w call_node) as [nd|e|] eqn:Hnd; cbn [mbind Outcome_bind];
      [|exists 0, (Throw e); split; [discriminate | reflexivity]
       |exists 0, OutOfFuel; exfalso; unfold node_at in Hnd;
          destruct (nodes w !! call_node); discriminate].
    destruct (is_call nd); cbn [AT_ASSERT mbind Outcome_bind];
      [|exists 0, (Throw AssertionFailed); split; [discriminate | reflexivity]].
    unfold input. destruct (inputs nd !! 0) as [v|]; cbn [or_throw mbind Outcome_bind];
      [|exists 0, (Throw OutOfRange); split; [discriminate | reflexivity]].
    unfold node_at. destruct (nodes w !! v.1) as [module_node|]; cbn [or_throw mbind Outcome_bind];
      [|exists 0, (Throw InvalidPointer); split; [discriminate | reflexivity]].
    destruct (attr_name module_node) as [nm|];
      [|exists 0, (Ok ""); split; [discriminate | reflexivity]].
    destruct (inputs module_node) as [|pv rest];
      [exists 0, (Ok nm); split; [discriminate | reflexivity]|].
    destruct (walk_terminates_from w rank Hacyclic (S (rank pv.1)) (Some pv) nm) as (r & Hr & Hw);
      [cbn; lia|].
    exists (S (rank pv.1)), r. split; [exact Hr | exact Hw].
  - intros [|fuel] nm; reflexivity.
  - intros fuel v t nm Ht Hml. rewrite walk_step, Ht. now rewrite Hml.
Qed.

Lemma walk_terminates_witness :
  exists fuel r, r <> OutOfFuel /\
    forall fuel', fuel <= fuel' ->
      GetCallNodeVariableName fuel' Example.container_call 3 = r.
Proof.
  refine (proj1 (walk_terminates Example.container_call Example.param_rank 3 _)).
  refine (bool_decide_unpack _ _). vm_compute. exact I.
Defined.

Lemma cycle_walk (fuel : nat) :
  forall nm,
    walk fuel Example.container_cycle (Some (1, 0)) nm = OutOfFuel /\
    walk fuel Example.container_cycle (Some (2, 0)) nm = OutOfFuel.
Proof.
  induction fuel as [|fuel IH]; intros nm; [split; reflexivity|].
  split.
  - change (walk fuel Example.container_cycle (Some (2, 0)) ("a" +:+ "." +:+ nm) = OutOfFuel).
    apply IH.
  - change (walk fuel Example.container_cycle (Some (1, 0)) ("b" +:+ "." +:+ nm) = OutOfFuel).
    apply IH.
Qed.

(** C9, as first stated, fails: on two containers that are each other's first
    input the loop has no exit, and the resolver never returns. *)
Lemma walk_cycle_never_returns : never_returns Example.container_cycle 3.
Proof.
  intros fuel.
  change (walk fuel Example.container_cycle (Some (2, 0)) "a" = OutOfFuel).
  apply cycle_walk.
Qed.

(** C8: a container met by the backward walk that has no "name" attribute is
    an error.  With the ModuleList a graph input, its producer is the
    parameter node, and reading its name throws. *)
Lemma unnamed_container_throws (fuel : nat) :
  GetCallNodeVariableName (S fuel) Example.container_param 3 = Throw MissingAttribute.
Proof. reflexivity. Qed.

(** ** What the pass preserves *)

Section Preserve.
Context (R : World -> World -> Prop) `{!PreOrder R}.

Definition preserves {A} (m : M A) : Prop := forall w, R w (m w).1.

Lemma preserves_ret {A} (a : A) : preserves (mret a).
Proof. intros w. reflexivity. Qed.

Lemma preserves_read {A} (f : World -> Outcome A) : preserves (read f).
Proof. intros w. reflexivity. Qed.

Lemma preserves_throw {A} (e : Error) : preserves (throw (A:=A) e).
Proof. intros w. reflexivity. Qed.

Lemma preserves_out_of_fuel {A} : preserves (out_of_fuel (A:=A)).
Proof. intros w. reflexivity. Qed.

Lemma preserves_bind {A B} (m : M A) (k : A -> M B) :
  preserves m -> (forall a, preserves (k a)) -> preserves (m ≫= k).
Proof.
  intros Hm Hk w. unfold mbind, M_bind.
  specialize (Hm w). destruct (m w) as [w1 [a|e|]]; cbn in *; [|done|done].
  etransitivity; [exact Hm | apply Hk].
Qed.

Lemma preserves_for_each {A} (f : A -> M unit) (l : list A) :
  (forall a, preserves (f a)) -> preserves (for_each f l).
Proof.
  intros Hf. induction l as [|x l IH]; cbn [for_each].
  - apply preserves_ret.
  - apply preserves_bind; [apply Hf | intros _; exact IH].
Qed.

Lemma preserves_map_each {A B} (f : A -> M B) (l : list A) :
  (forall a, preserves (f a)) -> preserves (map_each f l).
Proof.
  intros Hf. induction l as [|x l IH]; cbn [map_each].
  - apply preserves_ret.
  - apply preserves_bind; [apply Hf | intros y].
    apply preserves_bind; [exact IH | intros ys; apply preserves_ret].
Qed.

Lemma preserves_fold_each {A S} (f : S -> A -> M S) (l : list A) :
  (forall s a, preserves (f s a)) -> forall s, preserves (fold_each f s l).
Proof.
  intros Hf. induction l as [|x l IH]; intros s; cbn [fold_each].
  - apply preserves_ret.
  - apply preserves_bind; [apply Hf | intros s'; apply IH].
Qed.

End Preserve.

#[global] Instance same_graphs_preorder : PreOrder same_graphs.
Proof. split; [intros w; reflexivity | intros a b c H1 H2; unfold same_graphs in *; congruence]. Qed.

#[global] Instance unchanged_preorder : PreOrder unchanged.
Proof. split; [intros w; reflexivity | intros a b c H1 H2; unfold unchanged in *; congruence]. Qed.

Lemma keeps_modify_nodes f : preserves same_graphs (modify (set_nodes f)).
Proof. intros w. reflexivity. Qed.
Lemma keeps_modify_blocks f : preserves same_graphs (modify (set_blocks f)).
Proof. intros w. reflexivity. Qed.
Lemma keeps_alloc nd : preserves same_graphs (alloc nd).
Proof. intros w. reflexivity. Qed.
Lemma keeps_alloc_block b : preserves same_graphs (alloc_block b).
Proof. intros w. reflexivity. Qed.

Create HintDb keeps discriminated.

Ltac keeps :=
  repeat first
    [ progress intros
    | progress cbv beta
    | match goal with |- PreOrder _ => apply _ end
    | lazymatch goal with
      | |- preserves _ (_ ≫= _) => apply preserves_bind
      | |- preserves _ (mret _) => apply preserves_ret
      | |- preserves _ (read _) => apply preserves_read
      | |- preserves _ (throw _) => apply preserves_throw
      | |- preserves _ out_of_fuel => apply preserves_out_of_fuel
      | |- preserves _ (modify (set_nodes _)) => apply keeps_modify_nodes
      | |- preserves _ (modify (set_blocks _)) => apply keeps_modify_blocks
      | |- preserves _ (alloc _) => apply keeps_alloc
      | |- preserves _ (alloc_block _) => apply keeps_alloc_block
      | |- preserves _ (for_each _ _) => apply preserves_for_each
      | |- preserves _ (map_each _ _) => apply preserves_map_each
      | |- preserves _ (fold_each _ _ _) => apply preserves_fold_each
      | |- preserves _ (match ?x with _ => _ end) => destruct x
      end
    | solve [auto with keeps nocore] ].

Lemma keeps_get_node n : preserves same_graphs (get_node n).
Proof. unfold get_node. keeps. Qed.
Lemma keeps_update_node n f : preserves same_graphs (update_node n f).
Proof. unfold update_node. keeps. Qed.
#[local] Hint Resolve keeps_get_node keeps_update_node : keeps.

Lemma keeps_destroy n : preserves same_graphs (destroy n).
Proof. unfold destroy. keeps. Qed.
Lemma keeps_removeInput n i : preserves same_graphs (removeInput n i).
Proof. unfold removeInput. keeps. Qed.
Lemma keeps_removeAllInputs n : preserves same_graphs (removeAllInputs n).
Proof. unfold removeAllInputs. keeps. Qed.
Lemma keeps_replaceValueUses a b : preserves same_graphs (replaceValueUses a b).
Proof. unfold replaceValueUses. keeps. Qed.
Lemma keeps_insertBefore n cur : preserves same_graphs (insertBefore n cur).
Proof. unfold insertBefore. keeps. Qed.
Lemma keeps_insertAfter n cur : preserves same_graphs (insertAfter n cur).
Proof. unfold insertAfter. keeps. Qed.
Lemma keeps_create g k ins n : preserves same_graphs (create g k ins n).
Proof. unfold create. keeps. Qed.
#[local] Hint Resolve keeps_destroy keeps_removeInput keeps_removeAllInputs
  keeps_replaceValueUses keeps_insertBefore keeps_insertAfter keeps_create : keeps.

Lemma keeps_replaceAllUsesWith a b : preserves same_graphs (replaceAllUsesWith a b).
Proof. unfold replaceAllUsesWith. keeps. Qed.
Lemma keeps_destroy_if_unused n : preserves same_graphs (destroy_if_unused n).
Proof. unfold destroy_if_unused. keeps. Qed.
#[local] Hint Resolve keeps_replaceAllUsesWith keeps_destroy_if_unused : keeps.

Lemma keeps_createClone fuel :
  forall graph env n, preserves same_graphs (createClone fuel graph env n).
Proof.
  induction fuel as [|fuel IH]; intros graph env n; cbn [createClone]; [keeps|].
  unfold cloneBlock. keeps.
Qed.
#[local] Hint Resolve keeps_createClone : keeps.

Lemma keeps_inlineCallTo fuel graph cur callee :
  preserves same_graphs (inlineCallTo fuel graph cur callee).
Proof. unfold inlineCallTo, insertGraph. keeps. Qed.
#[local] Hint Resolve keeps_inlineCallTo : keeps.

Lemma set_current_scope_restore (graph : nat) (g : Graph) (s : Scope) (m : gmap nat Graph) :
  m !! graph = Some g ->
  alter (fun x => mkGraph (block x) (current_scope g)) graph
    (alter (fun x => mkGraph (block x) s) graph m) = m.
Proof.
  intros Hg. apply map_eq. intros i.
  destruct (decide (i = graph)) as [->|Hne].
  - rewrite !lookup_alter_eq, Hg. cbn. now destruct g.
  - now rewrite !lookup_alter_ne by done.
Qed.

Lemma keeps_WithCurrentScope {A} graph s (body : M A) :
  preserves same_graphs body -> preserves same_graphs (WithCurrentScope graph s body).
Proof.
  intros Hbody w. unfold WithCurrentScope, graph_at.
  destruct (graphs w !! graph) as [g|] eqn:Hg; cbn [or_throw]; [|reflexivity].
  specialize (Hbody (set_current_scope graph s w)).
  destruct (body (set_current_scope graph s w)) as [w' r].
  unfold same_graphs in *. cbn in *. rewrite Hbody.
  now apply set_current_scope_restore.
Qed.

#[global] Instance grows_preorder : PreOrder grows.
Proof. split; [intros w; unfold grows; set_solver | intros a b c; unfold grows; set_solver]. Qed.

Lemma grows_alloc nd : preserves grows (alloc nd).
Proof. intros w. unfold grows. cbn. rewrite dom_insert_L. set_solver. Qed.

Lemma grows_alloc_block b : preserves grows (alloc_block b).
Proof. intros w. unfold grows. cbn. done. Qed.

Lemma grows_update_node n f : preserves grows (update_node n f).
Proof. intros w. unfold grows. cbn. now rewrite dom_alter_L. Qed.

Lemma grows_get_node n : preserves grows (get_node n).
Proof. intros w. reflexivity. Qed.

Lemma grows_modify_blocks f : preserves grows (modify (set_blocks f)).
Proof. intros w. unfold grows. cbn. done. Qed.

#[local] Hint Resolve grows_alloc grows_alloc_block grows_update_node grows_get_node
  grows_modify_blocks : keeps.


(** ** Running the monad *)

Lemma run_bind {A B} (m : M A) (k : A -> M B) (w : World) :
  (m ≫= k) w =
    match m w with
    | (w', Ok a) => k a w'
    | (w', Throw e) => (w', Throw e)
    | (w', OutOfFuel) => (w', OutOfFuel)
    end.
Proof. reflexivity. Qed.

Lemma run_read {A B} (f : World -> Outcome A) (k : A -> M B) (w : World) :
  (read f ≫= k) w =
    match f w with
    | Ok a => k a w
    | Throw e => (w, Throw e)
    | OutOfFuel => (w, OutOfFuel)
    end.
Proof. rewrite run_bind. unfold read. now destruct (f w). Qed.

Lemma run_get_node {B} (n : nat) (nd : Node) (k : Node -> M B) (w : World) :
  nodes w !! n = Some nd -> (get_node n ≫= k) w = k nd w.
Proof. intros H. unfold get_node. rewrite run_read. unfold node_at. now rewrite H. Qed.






(** ** The primitives, run *)

Lemma hasUses_false (w : World) (n : nat) :
  hasUses w n = false <->
  forall m md (v : Value), nodes w !! m = Some md -> v ∈ inputs md -> v.1 <> n.
Proof.
  unfold hasUses. rewrite bool_decide_eq_false, map_Exists_lookup. split.
  - intros Hno m md v Hm Hv Heq. apply Hno. exists m, md. split; [exact Hm|].
    apply Exists_exists. eauto.
  - intros Hall (m & md & Hm & Hex). apply Exists_exists in Hex as (v & Hv & Heq).
    exact (Hall m md v Hm Hv Heq).
Qed.


Lemma inBlockList_false (w : World) (n : nat) :
  inBlockList w n = false <->
  forall b blk, block_store w !! b = Some blk -> n ∉ block_nodes blk.
Proof.
  unfold inBlockList. rewrite bool_decide_eq_false, map_Exists_lookup. split.
  - intros Hno b blk Hb Hin. apply Hno. eauto.
  - intros Hall (b & blk & Hb & Hin). exact (Hall b blk Hb Hin).
Qed.

Lemma inBlockList_true (w : World) (n : nat) :
  inBlockList w n = true <->
  exists b blk, block_store w !! b = Some blk /\ n ∈ block_nodes blk.
Proof. unfold inBlockList. now rewrite bool_decide_eq_true, map_Exists_lookup. Qed.

Lemma fresh_node (w : World) : nodes w !! fresh (dom (nodes w)) = None.
Proof. apply not_elem_of_dom, is_fresh. Qed.

Lemma run_removeInput (n i : nat) (nd : Node) (w : World) :
  nodes w !! n = Some nd -> i < length (inputs nd) ->
  removeInput n i w = (set_nodes (alter (with_inputs (delete i (inputs nd))) n) w, Ok tt).
Proof.
  intros Hn Hi. unfold removeInput. rewrite (run_get_node _ _ _ _ Hn), run_read.
  now rewrite bool_decide_true.
Qed.

Lemma run_removeAllInputs (n : nat) (nd : Node) (w : World) :
  nodes w !! n = Some nd ->
  removeAllInputs n w = (set_nodes (alter (with_inputs []) n) w, Ok tt).
Proof. intros Hn. unfold removeAllInputs. now rewrite (run_get_node _ _ _ _ Hn). Qed.

Lemma run_destroy (n : nat) (nd : Node) (w : World) :
  nodes w !! n = Some nd -> hasUses w n = false -> blocks nd = [] ->
  destroy n w =
    (set_nodes (delete n)
       (set_blocks (fmap (with_block_nodes (filter (fun m => m <> n)))) w), Ok tt).
Proof.
  intros Hn Hu Hb. unfold destroy. rewrite (run_get_node _ _ _ _ Hn), run_read, Hu, Hb.
  reflexivity.
Qed.


Lemma run_create (graph : nat) (g : Graph) (k : string) (ins : list Value) (n : nat)
    (w : World) :
  graphs w !! graph = Some g ->
  create graph k ins n w =
    (set_nodes (insert (fresh (dom (nodes w)))
                  (mkNode k ins (replicate n OtherType) None (current_scope g) [])) w,
     Ok (fresh (dom (nodes w)))).
Proof. intros Hg. unfold create. rewrite run_read. unfold graph_at. now rewrite Hg. Qed.

Lemma run_insertAfter (n cur : nat) (w : World) :
  inBlockList w n = false -> inBlockList w cur = true ->
  insertAfter n cur w =
    (set_blocks (fmap (with_block_nodes (insert_after cur n))) w, Ok tt).
Proof. intros Hn Hc. unfold insertAfter. now rewrite run_read, Hn, Hc. Qed.

Lemma run_replaceAllUsesWith_single (cur n : nat) (c nd : Node) (t t' : Type_) (w : World) :
  nodes w !! cur = Some c -> nodes w !! n = Some nd ->
  outputs c = [t] -> outputs nd = [t'] ->
  replaceAllUsesWith cur n w =
    (set_nodes (fmap (fun x => with_inputs (redirect (cur, 0) (n, 0) <$> inputs x) x)) w,
     Ok tt).
Proof.
  intros Hc Hn Hoc Hon. unfold replaceAllUsesWith.
  rewrite (run_get_node _ _ _ _ Hc), (run_get_node _ _ _ _ Hn), run_read, Hoc, Hon.
  reflexivity.
Qed.


Lemma redirect_other (old new v : Value) : v.1 <> old.1 -> redirect old new v = v.
Proof. intros H. unfold redirect. case_decide; [subst; done | reflexivity]. Qed.

Lemma redirect_list_other (old new : Value) (l : list Value) :
  Forall (fun v : Value => v.1 <> old.1) l -> redirect old new <$> l = l.
Proof.
  induction 1 as [|v l Hv Hl IH]; [reflexivity|].
  cbn. now rewrite redirect_other, IH.
Qed.




Lemma with_block_nodes_compose (f1 f2 : list nat -> list nat) (m : gmap nat Block) :
  with_block_nodes f1 <$> (with_block_nodes f2 <$> m) =
  with_block_nodes (fun l => f1 (f2 l)) <$> m.
Proof. rewrite <- map_fmap_compose. apply map_fmap_ext. now intros k [? ? ? ?] _. Qed.

Lemma set_current_scope_undo (graph : nat) (g : Graph) (s : Scope) (w : World) :
  graphs w !! graph = Some g ->
  set_current_scope graph (current_scope g) (set_current_scope graph s w) = w.
Proof.
  intros Hg. destruct w as [ns bs gs]. unfold set_current_scope, set_graphs. cbn in *.
  f_equal. now apply set_current_scope_restore.
Qed.

Lemma pure_guard_ret graph s : preserves unchanged (WithCurrentScope graph s (mret tt)).
Proof.
  intros w. unfold WithCurrentScope, graph_at.
  destruct (graphs w !! graph) as [g|] eqn:Hg; cbn [or_throw]; [|reflexivity].
  cbn. now apply set_current_scope_undo.
Qed.

Lemma WithCurrentScope_Ok {A} (graph : nat) (s : Scope) (body : M A) (w w' : World) (a : A) :
  WithCurrentScope graph s body w = (w', Ok a) ->
  exists g w1,
    graphs w !! graph = Some g /\
    body (set_current_scope graph s w) = (w1, Ok a) /\
    w' = set_current_scope graph (current_scope g) w1.
Proof.
  unfold WithCurrentScope, graph_at. intros H.
  destruct (graphs w !! graph) as [g|]; cbn [or_throw] in H; [|discriminate].
  destruct (body (set_current_scope graph s w)) as [w1 r] eqn:Hb.
  injection H as <- ->. eauto.
Qed.

(** ** Inlining, run *)





(** ** The pass *)

Section PassProperties.
Variable createFullScopeName : string -> string -> string.

Lemma keeps_SetScopeGuardForCall fuel graph cur :
  preserves same_graphs (SetScopeGuardForCall createFullScopeName fuel graph cur).
Proof. unfold SetScopeGuardForCall. keeps. Qed.
#[local] Hint Resolve keeps_SetScopeGuardForCall : keeps.

Lemma pure_SetScopeGuardForCall fuel graph cur :
  preserves unchanged (SetScopeGuardForCall createFullScopeName fuel graph cur).
Proof. unfold SetScopeGuardForCall, get_node. keeps. Qed.

Lemma keeps_visit fuel recurse graph cur :
  (forall b, preserves same_graphs (recurse b)) ->
  preserves same_graphs (visit createFullScopeName fuel recurse graph cur).
Proof.
  intros Hrec.
  unfold visit, call_function, call_method, other_node, substitute_interpolate,
    inline_function.
  keeps.
  apply keeps_WithCurrentScope. keeps.
  apply keeps_WithCurrentScope. keeps.
Qed.

Lemma keeps_functionCallSubstitution fuel :
  forall b, preserves same_graphs (functionCallSubstitution createFullScopeName fuel b).
Proof.
  induction fuel as [|fuel IH]; intros b; cbn [functionCallSubstitution]; keeps.
  apply keeps_visit, IH.
Qed.

(** C3: whatever the outcome of the pass (it returns, it throws, in this
    embedding it runs out of fuel), every graph of the store has the current
    scope it had before: each guard's push is undone exactly once when the
    guarded handling ends.  This holds for the whole pass, for the pass over
    one block, and for the handling of one node. *)
Theorem current_scope_restored (fuel graph : nat) (w : World) :
  graphs (ONNXFunctionCallSubstitution createFullScopeName fuel graph w).1 = graphs w /\
  (forall b, graphs (functionCallSubstitution createFullScopeName fuel b w).1 = graphs w) /\
  (forall fuel' g cur,
     graphs (visit createFullScopeName fuel
               (functionCallSubstitution createFullScopeName fuel') g cur w).1 = graphs w).
Proof.
  split; [|split].
  - revert w.
    change (preserves same_graphs (ONNXFunctionCallSubstitution createFullScopeName fuel graph)).
    unfold ONNXFunctionCallSubstitution, ONNXGraphTopLevelScopeGuard. keeps.
    all: apply keeps_WithCurrentScope; keeps; apply keeps_functionCallSubstitution.
  - intros b. apply keeps_functionCallSubstitution.
  - intros fuel' g cur. apply keeps_visit, keeps_functionCallSubstitution.
Qed.

Lemma visit_CallMethod fuel recurse graph cur w nd :
  nodes w !! cur = Some nd -> kind nd = "prim::CallMethod" ->
  visit createFullScopeName fuel recurse graph cur w =
    call_method createFullScopeName fuel recurse graph cur w.
Proof.
  intros Hcur Hkind. unfold visit. rewrite (run_get_node _ _ _ _ Hcur).
  now rewrite Hkind.
Qed.

Lemma visit_CallFunction fuel recurse graph cur w nd :
  nodes w !! cur = Some nd -> kind nd = "prim::CallFunction" ->
  visit createFullScopeName fuel recurse graph cur w =
    call_function fuel recurse graph cur w.
Proof.
  intros Hcur Hkind. unfold visit. rewrite (run_get_node _ _ _ _ Hcur).
  now rewrite Hkind.
Qed.

Lemma visit_other fuel recurse graph cur w nd :
  nodes w !! cur = Some nd ->
  kind nd <> "prim::CallFunction" -> kind nd <> "prim::CallMethod" ->
  visit createFullScopeName fuel recurse graph cur w = other_node recurse graph cur w.
Proof.
  intros Hcur Hf Hm. unfold visit. rewrite (run_get_node _ _ _ _ Hcur).
  apply String.eqb_neq in Hf, Hm. now rewrite Hf, Hm.
Qed.

(** C7: handling a method call whose receiver's static type is not a class
    type, or whose method has no graph body, leaves the whole store as it
    was: the instruction stays in its block with the same inputs, outputs and
    scope, and every graph keeps its current scope. *)
Theorem unresolvable_method_call_untouched (fuel : nat) (recurse : nat -> M unit)
    (graph cur : nat) (w : World) (nd : Node)
    (Hcur : nodes w !! cur = Some nd)
    (Hkind : kind nd = "prim::CallMethod")
    (Hunresolvable : unresolvable w nd) :
  (visit createFullScopeName fuel recurse graph cur w).1 = w.
Proof.
  rewrite (visit_CallMethod _ _ _ _ _ _ Hcur Hkind). unfold call_method.
  rewrite (run_get_node _ _ _ _ Hcur), run_read.
  destruct Hunresolvable as [v t Hin Hty Hnc|v cname methods name f Hin Hty Hname Hf Hg].
  - destruct (s_name nd); [|reflexivity|reflexivity].
    rewrite run_read. unfold input. rewrite Hin. cbn [or_throw].
    rewrite run_read, Hty. destruct t; try reflexivity. now destruct (Hnc name methods).
  - unfold s_name. rewrite Hname. cbn [or_throw].
    rewrite run_read. unfold input. rewrite Hin. cbn [or_throw].
    rewrite run_read, Hty, run_read, Hf, run_bind.
    pose proof (pure_SetScopeGuardForCall fuel graph cur w) as Hpure.
    destruct (SetScopeGuardForCall createFullScopeName fuel graph cur w) as [w1 [s|e|]];
      cbn in Hpure; unfold unchanged in Hpure; subst w1; try reflexivity.
    rewrite Hg. apply pure_guard_ret.
Qed.

(** C10: a method call on a receiver of a class type that has no method of
    the call's name throws at the method lookup; the loop over the block
    stops there, and the store is as it was. *)
Theorem missing_method_aborts (fuel : nat) (recurse : nat -> M unit)
    (graph cur : nat) (w : World) (nd : Node) (v : Value)
    (cname : option QualifiedName) (methods : list (string * Function)) (name : string)
    (rest : list nat)
    (Hcur : nodes w !! cur = Some nd)
    (Hkind : kind nd = "prim::CallMethod")
    (Hname : attr_name nd = Some name)
    (Hin : inputs nd !! 0 = Some v)
    (Hty : type_of w v = Ok (ClassType cname methods))
    (Hmissing : find (fun m : string * Function => String.eqb m.1 name) methods = None) :
  visit createFullScopeName fuel recurse graph cur w = (w, Throw MissingMethod) /\
  for_each (visit createFullScopeName fuel recurse graph) (cur :: rest) w =
    (w, Throw MissingMethod).
Proof.
  assert (Hv : visit createFullScopeName fuel recurse graph cur w = (w, Throw MissingMethod)).
  { rewrite (visit_CallMethod _ _ _ _ _ _ Hcur Hkind). unfold call_method.
    rewrite (run_get_node _ _ _ _ Hcur), run_read.
    unfold s_name. rewrite Hname. cbn [or_throw].
    rewrite run_read. unfold input. rewrite Hin. cbn [or_throw].
    rewrite run_read, Hty, run_read. unfold getMethod. now rewrite Hmissing. }
  split; [exact Hv|]. cbn [for_each]. now rewrite run_bind, Hv.
Qed.

End PassProperties.

(** ** The interpolate substitution *)

Lemma substitute_tail (graph cur : nat) (g : Graph) (nd : Node) (t : Type_) (w : World) :
  nodes w !! cur = Some nd -> outputs nd = [t] -> blocks nd = [] ->
  graphs w !! graph = Some g ->
  inBlockList w cur = true -> lists_live w -> uses_valid w cur 1 ->
  let new := fresh (dom (nodes w)) in
  (interpolate_node ← create graph "aten::__interpolate" (inputs nd) (length (outputs nd));
   new_node ← get_node interpolate_node;
   _ ← read (fun _ => output new_node);
   t ← read (fun _ => output nd);
   _ ← update_node interpolate_node (with_outputs [t]);
   _ ← insertAfter interpolate_node cur;
   _ ← update_node interpolate_node (with_scope (scope nd));
   _ ← replaceAllUsesWith cur interpolate_node;
   _ ← removeAllInputs cur;
   destroy cur) w = (interpolated g cur new nd w, Ok tt).
Proof.
  intros Hcur Hout Hblocks Hg Hlisted Hlive Hvalid new.
  assert (Hnew : nodes w !! new = None) by apply fresh_node.
  assert (Hne : new <> cur) by (intros ->; congruence).
  rewrite run_bind, (run_create _ _ _ _ _ _ Hg). fold new.
  erewrite run_get_node; [|cbn; apply lookup_insert_eq].
  rewrite Hout. cbn [length replicate]. rewrite run_read. cbn [output outputs].
  rewrite run_read. unfold output. rewrite Hout.
  rewrite run_bind. cbn [update_node modify].
  rewrite run_bind, run_insertAfter; cycle 1.
  { apply inBlockList_false. intros b blk Hb Hin. cbn in Hb.
    specialize (Hlive b blk Hb). rewrite Forall_forall in Hlive.
    destruct (Hlive new Hin) as [x Hx]. congruence. }
  { exact Hlisted. }
  rewrite run_bind. cbn [update_node modify].
  rewrite run_bind.
  erewrite run_replaceAllUsesWith_single; cycle 1.
  { cbn. rewrite !lookup_alter_ne, lookup_insert_ne by done. exact Hcur. }
  { cbn. rewrite !lookup_alter_eq, lookup_insert_eq. reflexivity. }
  { exact Hout. }
  { reflexivity. }
  rewrite run_bind. erewrite run_removeAllInputs; cycle 1.
  { cbn. rewrite lookup_fmap, !lookup_alter_ne, lookup_insert_ne, Hcur by done. reflexivity. }
  erewrite run_destroy; cycle 1.
  { cbn. rewrite lookup_alter_eq, lookup_fmap, !lookup_alter_ne, lookup_insert_ne, Hcur by done.
    reflexivity. }
  { apply hasUses_false. intros m md v Hm Hv. cbn in Hm.
    destruct (decide (m = cur)) as [->|Hmc].
    - rewrite lookup_alter_eq, lookup_fmap, !lookup_alter_ne, lookup_insert_ne, Hcur in Hm by done.
      cbn in Hm. injection Hm as <-. cbn in Hv. now apply elem_of_nil in Hv.
    - rewrite lookup_alter_ne, lookup_fmap in Hm by done.
      destruct (decide (m = new)) as [->|Hmn].
      + rewrite !lookup_alter_eq, lookup_insert_eq in Hm. cbn in Hm. injection Hm as <-.
        cbn in Hv. apply list_elem_of_fmap in Hv as (u & -> & Hu).
        unfold redirect. case_decide as Hd; [cbn; congruence|].
        intros Hu1. apply Hd. specialize (Hvalid cur nd Hcur). rewrite Forall_forall in Hvalid.
        specialize (Hvalid u Hu Hu1). destruct u as [a b]. cbn in *. f_equal; [done | lia].
      + rewrite !lookup_alter_ne, lookup_insert_ne in Hm by done.
        destruct (nodes w !! m) as [x|] eqn:Hx; [|discriminate]. cbn in Hm. injection Hm as <-.
        cbn in Hv. apply list_elem_of_fmap in Hv as (u & -> & Hu).
        unfold redirect. case_decide as Hd; [cbn; congruence|].
        intros Hu1. apply Hd. specialize (Hvalid m x Hx). rewrite Forall_forall in Hvalid.
        specialize (Hvalid u Hu Hu1). destruct u as [a b]. cbn in *. f_equal; [done | lia]. }
  { exact Hblocks. }
  unfold interpolated. fold new. rewrite Hout. reflexivity.
Qed.

Section Interpolate.
Variable createFullScopeName : string -> string -> string.
Context (graph cur c i : nat) (w : World) (nd cn : Node) (g : Graph)
  (rest : list Value) (t : Type_) (f : Function).
Hypothesis (Hcur : nodes w !! cur = Some nd).
Hypothesis (Hkind : kind nd = "prim::CallFunction").
Hypothesis (Hinputs : inputs nd = (c, i) :: rest).
Hypothesis (Houtputs : outputs nd = [t]).
Hypothesis (Hblocks : blocks nd = []).
Hypothesis (Hconst : nodes w !! c = Some cn).
Hypothesis (Hckind : kind cn = "prim::Constant").
Hypothesis (Hctype : outputs cn = [FunctionType f]).
Hypothesis (Hcblocks : blocks cn = []).
Hypothesis (Hmatch : is_interpolate f = true).
Hypothesis (Hgraph : graphs w !! graph = Some g).
Hypothesis (Hlisted : inBlockList w cur = true).
Hypothesis (Hlive : lists_live w).
Hypothesis (Hvalid : uses_valid w cur 1).
Hypothesis (Hself : Forall (fun v : Value => v.1 <> cur) rest).

Let w1 : World := set_nodes (alter (with_inputs rest) cur) w.
Let unused : bool := unused_without w cur c rest.
Let w2 : World :=
  if unused
  then set_nodes (delete c)
         (set_blocks (fmap (with_block_nodes (filter (fun m => m <> c)))) w1)
  else w1.
Let nd1 : Node := with_inputs rest nd.

Lemma const_not_cur : c <> cur.
Proof.
  intros ->. rewrite Hcur in Hconst. injection Hconst as <-.
  rewrite Hkind in Hckind. discriminate.
Qed.

Lemma head_remove : removeInput cur 0 w = (w1, Ok tt).
Proof.
  erewrite run_removeInput; [|exact Hcur|rewrite Hinputs; cbn; lia].
  now rewrite Hinputs.
Qed.

Lemma head_destroy : destroy_if_unused c w1 = (w2, Ok tt).
Proof.
  pose proof const_not_cur as Hne.
  unfold destroy_if_unused. rewrite run_read. subst w2 unused. unfold unused_without.
  fold w1. destruct (hasUses w1 c) eqn:Hu; cbn [negb]; [reflexivity|].
  erewrite run_destroy; [reflexivity| |exact Hu|exact Hcblocks].
  subst w1. cbn. now rewrite lookup_alter_ne.
Qed.

Lemma w2_cur : nodes w2 !! cur = Some nd1.
Proof.
  pose proof const_not_cur as Hne.
  subst w2 w1 nd1. destruct unused; cbn.
  - now rewrite lookup_delete_ne, lookup_alter_eq, Hcur.
  - now rewrite lookup_alter_eq, Hcur.
Qed.

Lemma w2_other (m : nat) : m <> cur -> m <> c -> nodes w2 !! m = nodes w !! m.
Proof.
  intros Hm Hc. subst w2 w1. destruct unused; cbn.
  - now rewrite lookup_delete_ne, lookup_alter_ne.
  - now rewrite lookup_alter_ne.
Qed.

Lemma w2_sub (m : nat) (md : Node) :
  nodes w2 !! m = Some md ->
  exists md0, nodes w !! m = Some md0 /\ inputs md ⊆ inputs md0.
Proof.
  intros Hm. assert (Hm1 : nodes w1 !! m = Some md).
  { subst w2. destruct unused; [|exact Hm]. cbn in Hm.
    apply lookup_delete_Some in Hm as [_ Hm]. exact Hm. }
  subst w1. cbn in Hm1. destruct (decide (m = cur)) as [->|Hne].
  - rewrite lookup_alter_eq, Hcur in Hm1. injection Hm1 as <-.
    exists nd. split; [exact Hcur|]. rewrite Hinputs. cbn. set_solver.
  - rewrite lookup_alter_ne in Hm1 by done. exists md. split; [exact Hm1 | done].
Qed.

Lemma w2_graph : graphs w2 = graphs w.
Proof. subst w2 w1. now destruct unused. Qed.

Lemma w2_listed : inBlockList w2 cur = true.
Proof.
  pose proof const_not_cur as Hne.
  apply inBlockList_true in Hlisted as (b & blk & Hb & Hin).
  apply inBlockList_true. subst w2 w1. destruct unused; cbn.
  - exists b, (with_block_nodes (filter (fun m => m <> c)) blk). split.
    + now rewrite lookup_fmap, Hb.
    + cbn. apply list_elem_of_filter. split; [congruence | exact Hin].
  - exists b, blk. split; assumption.
Qed.

Lemma w2_live : lists_live w2.
Proof.
  intros b blk Hb. apply Forall_forall. intros n Hn.
  subst w2 w1. destruct unused; cbn in *.
  - rewrite lookup_fmap in Hb. destruct (block_store w !! b) as [blk0|] eqn:Hb0; [|discriminate].
    cbn in Hb. injection Hb as <-. cbn in Hn. apply list_elem_of_filter in Hn as [Hnc Hn].
    specialize (Hlive b blk0 Hb0). rewrite Forall_forall in Hlive. specialize (Hlive n Hn).
    rewrite lookup_delete_ne by done. destruct (decide (n = cur)) as [->|Hne].
    + rewrite lookup_alter_eq. destruct Hlive as [x ->]. eauto.
    + now rewrite lookup_alter_ne.
  - specialize (Hlive b blk Hb). rewrite Forall_forall in Hlive. specialize (Hlive n Hn).
    destruct (decide (n = cur)) as [->|Hne].
    + rewrite lookup_alter_eq. destruct Hlive as [x ->]. eauto.
    + now rewrite lookup_alter_ne.
Qed.

Lemma w2_valid : uses_valid w2 cur 1.
Proof.
  intros m md Hm. apply Forall_forall. intros v Hv.
  destruct (w2_sub m md Hm) as (md0 & Hm0 & Hsub).
  specialize (Hvalid m md0 Hm0). rewrite Forall_forall in Hvalid. apply Hvalid, Hsub, Hv.
Qed.

(** C1: a function call whose callee's qualified name contains both
    "torch.nn.functional" and "interpolate" is replaced by one new
    [aten::__interpolate] instruction.  Input 0 is removed, and its constant
    producer destroyed when nothing else uses it; the new instruction reads
    the remaining inputs, has the call's output and scope, and takes the
    call's place in the block; every use of the call's output reads the new
    instruction's output instead; the call is gone from the block and from
    the store; the current scopes are untouched.  The callee's body is not
    entered: the result is the same whatever the recursion would do. *)
Theorem interpolate_call_substituted :
  exists new w',
    (forall fuel recurse,
       visit createFullScopeName fuel recurse graph cur w = (w', Ok tt)) /\
    new <> cur /\
    (nodes w !! new = None \/ (unused_without w cur c rest = true /\ new = c)) /\
    nodes w' !! new = Some (mkNode "aten::__interpolate" rest [t] None (scope nd) []) /\
    nodes w' !! cur = None /\
    hasUses w' cur = false /\
    (forall m md, nodes w !! m = Some md -> m <> cur -> m <> c ->
       nodes w' !! m = Some (with_inputs (redirect (cur, 0) (new, 0) <$> inputs md) md)) /\
    (forall m, nodes w !! m = None -> m <> new -> nodes w' !! m = None) /\
    (if unused_without w cur c rest then c <> new -> nodes w' !! c = None
     else nodes w' !! c = Some (with_inputs (redirect (cur, 0) (new, 0) <$> inputs cn) cn)) /\
    block_store w' =
      with_block_nodes
        (fun l => filter (fun m => m <> cur)
                    (insert_after cur new
                       (if unused_without w cur c rest
                        then filter (fun m => m <> c) l else l)))
        <$> block_store w /\
    graphs w' = graphs w.
Proof.
  pose proof const_not_cur as Hne.
  pose proof w2_cur as Hcur2.
  fold unused.
  set (new := fresh (dom (nodes w2))).
  assert (Hnew2 : nodes w2 !! new = None) by apply fresh_node.
  assert (Hnc : new <> cur) by (intros E; rewrite E in Hnew2; congruence).
  exists new, (interpolated g cur new nd1 w2).
  assert (Hrun : forall fuel recurse,
            visit createFullScopeName fuel recurse graph cur w =
              (interpolated g cur new nd1 w2, Ok tt)).
  { intros fuel recurse.
    rewrite (visit_CallFunction _ _ _ _ _ _ _ Hcur Hkind). unfold call_function.
    rewrite (run_get_node _ _ _ _ Hcur), run_read. unfold input at 1.
    rewrite Hinputs. cbn [lookup list_lookup or_throw fst].
    rewrite (run_get_node _ _ _ _ Hconst), run_read, Hckind. cbn [String.eqb AT_ASSERT].
    rewrite run_read. unfold output. rewrite Hctype, Hmatch.
    unfold substitute_interpolate.
    rewrite (run_get_node _ _ _ _ Hcur), run_read. unfold input.
    rewrite Hinputs. cbn [lookup list_lookup or_throw fst].
    rewrite run_bind, head_remove, run_bind, head_destroy.
    rewrite (run_get_node _ _ _ _ Hcur2).
    apply (substitute_tail graph cur g nd1 t w2 Hcur2 Houtputs Hblocks).
    - now rewrite w2_graph.
    - apply w2_listed.
    - apply w2_live.
    - apply w2_valid. }
  split; [exact Hrun|]. split; [exact Hnc|].
  assert (Hnew_node : forall x, nodes (interpolated g cur new nd1 w2) !! x =
            if decide (x = cur) then None
            else if decide (x = new)
                 then Some (mkNode "aten::__interpolate" rest [t] None (scope nd) [])
                 else (fun md => with_inputs (redirect (cur, 0) (new, 0) <$> inputs md) md)
                        <$> nodes w2 !! x).
  { intros x. unfold interpolated. cbn.
    destruct (decide (x = cur)) as [->|Hxc]; [apply lookup_delete_eq|].
    rewrite lookup_delete_ne, lookup_alter_ne, lookup_fmap by done.
    destruct (decide (x = new)) as [->|Hxn].
    - rewrite !lookup_alter_eq, lookup_insert_eq. cbn. rewrite Houtputs.
      unfold with_inputs. cbn. f_equal. f_equal.
      apply redirect_list_other. exact Hself.
    - now rewrite !lookup_alter_ne, lookup_insert_ne by done. }
  split.
  { destruct (nodes w !! new) as [x|] eqn:Hx; [right | now left].
    destruct (decide (new = c)) as [->|Hc].
    - split; [|reflexivity]. subst w2. destruct unused; [reflexivity|].
      subst w1. cbn in Hnew2. rewrite lookup_alter_ne, Hconst in Hnew2 by done. discriminate.
    - rewrite w2_other, Hx in Hnew2 by done. discriminate. }
  split. { rewrite Hnew_node, decide_False, decide_True by done. reflexivity. }
  split. { now rewrite Hnew_node, decide_True. }
  split.
  { apply hasUses_false. intros m md v Hm Hv Hv1. rewrite Hnew_node in Hm.
    destruct (decide (m = cur)); [discriminate|].
    destruct (decide (m = new)).
    - injection Hm as <-. cbn in Hv. rewrite Forall_forall in Hself. exact (Hself v Hv Hv1).
    - destruct (nodes w2 !! m) as [x|] eqn:Hx; [|discriminate]. cbn in Hm. injection Hm as <-.
      cbn in Hv. apply list_elem_of_fmap in Hv as (u & -> & Hu).
      pose proof (w2_valid m x Hx) as Hval. rewrite Forall_forall in Hval.
      unfold redirect in Hv1. case_decide as Hd; [cbn in Hv1; congruence|].
      apply Hd. specialize (Hval u Hu Hv1). destruct u as [a b]. cbn in *. f_equal; [done|lia]. }
  split.
  { intros m md Hm Hmc Hmcn. rewrite Hnew_node, decide_False by done.
    rewrite decide_False.
    - now rewrite w2_other, Hm by done.
    - intros ->. rewrite w2_other, Hm in Hnew2 by done. discriminate. }
  split.
  { intros m Hm Hmn. rewrite Hnew_node. destruct (decide (m = cur)); [reflexivity|].
    rewrite decide_False by done.
    destruct (decide (m = c)) as [->|Hmc]; [congruence|].
    now rewrite w2_other, Hm by done. }
  split.
  { subst w2. destruct unused.
    - intros Hcn. rewrite Hnew_node, !decide_False by done. cbn. now rewrite lookup_delete_eq.
    - rewrite Hnew_node, decide_False by done. rewrite decide_False.
      + subst w1. cbn. now rewrite lookup_alter_ne, Hconst by done.
      + intros E. subst w1. cbn in Hnew2. rewrite <- E, lookup_alter_ne, Hconst in Hnew2 by done.
        discriminate. }
  split.
  { unfold interpolated. cbn. rewrite with_block_nodes_compose.
    subst w2. destruct unused; cbn.
    - now rewrite with_block_nodes_compose.
    - reflexivity. }
  unfold interpolated. cbn. apply w2_graph.
Qed.

End Interpolate.

(** ** The theorems at the example graphs *)

(** The call of [Example.arity_mismatch] throws in the middle of inlining,
    under both guards; the scopes are back all the same. *)
Lemma current_scope_restored_witness :
  let r := ONNXFunctionCallSubstitution Example.scope_name 5 0 Example.arity_mismatch in
  r.2 = Throw AssertionFailed /\ graphs r.1 = graphs Example.arity_mismatch.
Proof.
  split; [vm_compute; reflexivity|].
  exact (proj1 (current_scope_restored Example.scope_name 5 0 Example.arity_mismatch)).
Defined.

Lemma unresolvable_method_call_untouched_witness :
  (visit Example.scope_name 5 (fun _ => mret tt) 0 3 Example.tensor_method).1 =
    Example.tensor_method.
Proof.
  refine (unresolvable_method_call_untouched Example.scope_name 5 _ 0 3 Example.tensor_method
            (mkNode "prim::CallMethod" [(100, 0); (100, 1)] [OtherType] (Some "forward")
               Example.blank [])
            eq_refl eq_refl _).
  eapply not_a_class with (v := (100, 0)) (t := OtherType);
    [reflexivity | reflexivity | discriminate].
Defined.

Lemma missing_method_aborts_witness :
  visit Example.scope_name 5 (fun _ => mret tt) 0 3 Example.unknown_method =
    (Example.unknown_method, Throw MissingMethod).
Proof.
  exact (proj1 (missing_method_aborts Example.scope_name 5 (fun _ => mret tt) 0 3
                  Example.unknown_method
                  (mkNode "prim::CallMethod" [(100, 0); (100, 1)] [OtherType] (Some "forward")
                     Example.blank [])
                  (100, 0) (Example.name_of ["__torch__"; "pkg"; "Top"]) [] "forward" []
                  eq_refl eq_refl eq_refl eq_refl eq_refl eq_refl)).
Defined.


Lemma interpolate_call_substituted_witness :
  exists new w',
    (forall fuel recurse,
       visit Example.scope_name fuel recurse 0 5 Example.interpolate_call = (w', Ok tt)) /\
    nodes w' !! new =
      Some (mkNode "aten::__interpolate" [(100, 0)] [OtherType] None Example.blank []) /\
    nodes w' !! 5 = None /\
    hasUses w' 5 = false.
Proof.
  destruct (interpolate_call_substituted Example.scope_name 0 5 4 0 Example.interpolate_call
              (mkNode "prim::CallFunction" [(4, 0); (100, 0)] [OtherType] None Example.blank [])
              (mkNode "prim::Constant" [] [FunctionType Example.interpolate] None
                 Example.blank [])
              (mkGraph 0 Example.blank) [(100, 0)] OtherType Example.interpolate
              eq_refl eq_refl eq_refl eq_refl eq_refl eq_refl eq_refl eq_refl eq_refl
              eq_refl eq_refl eq_refl)
    as (new & w' & Hrun & _ & _ & Hnew & Hcur & Huses & _).
  - refine (bool_decide_unpack _ _). vm_compute. exact I.
  - refine (bool_decide_unpack _ _). vm_compute. exact I.
  - repeat constructor. cbn. lia.
  - exists new, w'. repeat split; assumption.
Defined.

(** * Further properties *)

(** ** Qualified-name tidying, any name *)

Lemma tidy_fold_kept (l : list string) :
  forall out,
    fold_left Tidy.step l out =
    fold_left Tidy.step (filter (fun a => Tidy.kept a = true) l) out.
Proof.
  induction l as [|a l IH]; intros out; [reflexivity|].
  rewrite filter_cons. destruct (Tidy.kept a) eqn:Hk.
  - rewrite decide_True by done. cbn [fold_left]. apply IH.
  - rewrite decide_False by (intros ?; congruence). cbn [fold_left].
    rewrite tidy_step_kept, Hk. apply IH.
Qed.

Lemma tidy_fold_nonempty (l : list string) :
  forall out, out <> "" -> fold_left Tidy.step l out <> "".
Proof.
  induction l as [|a l IH]; intros out Hout; [exact Hout|].
  cbn [fold_left]. apply IH. rewrite tidy_step_kept.
  destruct (Tidy.kept a); [|exact Hout].
  destruct out; [done | discriminate].
Qed.

Lemma tidy_fold_empty (l : list string) :
  fold_left Tidy.step l "" = "" <->
  Forall (fun a => Tidy.kept a = true -> a = "") l.
Proof.
  induction l as [|a l IH]; [split; [constructor | reflexivity]|].
  cbn [fold_left]. rewrite tidy_step_kept. cbn [empty_str].
  destruct (Tidy.kept a) eqn:Hk.
  - destruct a as [|c a].
    + rewrite IH. split; [intros H; constructor; [done | exact H] | intros H; now inversion H].
    + split.
      * intros H. exfalso. revert H. now apply tidy_fold_nonempty.
      * intros H. inversion H as [|? ? Ha]. specialize (Ha Hk). discriminate.
  - rewrite IH. split; [intros H; constructor; [intros ?; congruence | exact H]
                       | intros H; now inversion H].
Qed.

Lemma concat_cons_join (a b : string) (l : list string) :
  String.concat "." ((a +:+ "." +:+ b) :: l) = String.concat "." (a :: b :: l).
Proof.
  destruct l as [|c l]; [reflexivity|].
  change ((a +:+ "." +:+ b) +:+ "." +:+ String.concat "." (c :: l) =
          a +:+ "." +:+ (b +:+ "." +:+ String.concat "." (c :: l))).
  now rewrite !append_assoc.
Qed.

Lemma tidy_fold_from (l : list string) :
  Forall (fun a => Tidy.kept a = true) l ->
  forall out, out <> "" -> fold_left Tidy.step l out = String.concat "." (out :: l).
Proof.
  induction 1 as [|a l Ha Hl IH]; intros out Hout; [reflexivity|].
  cbn [fold_left]. rewrite tidy_step_kept, Ha.
  destruct (empty_str out) eqn:He; [apply empty_str_true in He; done|].
  rewrite IH; [apply concat_cons_join|].
  destruct out; [done | discriminate].
Qed.

Lemma tidy_fold_start (l : list string) :
  Forall (fun a => Tidy.kept a = true) l ->
  fold_left Tidy.step l "" = String.concat "." (drop_empty l).
Proof.
  induction 1 as [|a l Ha Hl IH]; [reflexivity|].
  cbn [fold_left drop_empty]. rewrite tidy_step_kept, Ha. cbn [empty_str].
  destruct a as [|c a]; [exact IH|]. cbn [empty_str].
  now apply tidy_fold_from.
Qed.

(** X1: for any qualified name, also one with empty segments, the tidied
    class name is the "."-join of the segments that are kept (neither
    "__torch__" nor containing "__torch_mangle") once the leading empty ones
    among them are dropped: the separator is written only when the output so
    far is not empty.  A dropped segment can be removed from the name, where
    ever it stands, without changing the result. *)
Theorem tidy_joins_kept_segments (q : QualifiedName) :
  TidyClassNameFromTorchScript (Some q) =
    String.concat "." (drop_empty (filter (fun a => Tidy.kept a = true) (atoms q))) /\
  (forall (l1 l2 : list string) (a : string),
     atoms q = (l1 ++ a :: l2)%list -> Tidy.kept a = false ->
     TidyClassNameFromTorchScript (Some q) =
       TidyClassNameFromTorchScript (Some (mkQualifiedName (l1 ++ l2)%list))).
Proof.
  split.
  - unfold TidyClassNameFromTorchScript. rewrite tidy_fold_kept.
    apply tidy_fold_start. apply list.Forall_forall. intros a Ha.
    now apply list_elem_of_filter in Ha as [Ha _].
  - intros l1 l2 a Hq Ha. unfold TidyClassNameFromTorchScript. cbn [atoms].
    rewrite Hq, (tidy_fold_kept (l1 ++ a :: l2)%list), (tidy_fold_kept (l1 ++ l2)%list).
    rewrite !filter_app, filter_cons, decide_False by (intros ?; congruence).
    reflexivity.
Qed.

(** X2: the tidied class name is empty exactly when every kept segment is
    empty; so it is for a name made of "__torch__" and mangled segments
    only. *)
Theorem tidy_empty_label (q : QualifiedName) :
  (TidyClassNameFromTorchScript (Some q) = "" <->
   Forall (fun a => Tidy.kept a = true -> a = "") (atoms q)) /\
  (Forall (fun a => Tidy.kept a = false) (atoms q) ->
   TidyClassNameFromTorchScript (Some q) = "").
Proof.
  split; [apply tidy_fold_empty|].
  intros H. apply tidy_fold_empty. eapply Forall_impl; [exact H|].
  cbn. intros a Ha Hk. congruence.
Qed.

(** ** Call-site variable names, any store *)

Lemma walk_suffix (w : World) (fuel : nat) :
  forall pv nm name,
    walk fuel w pv nm = Ok name ->
    exists p, name = p +:+ nm /\ (p = "" \/ ends_with "." p).
Proof.
  induction fuel as [|fuel IH]; intros pv nm name Hw.
  - destruct pv as [v|]; [discriminate|]. injection Hw as <-. exists "". auto.
  - destruct pv as [v|]; [|injection Hw as <-; exists ""; auto].
    rewrite walk_step in Hw.
    destruct (type_of w v) as [t|e|]; [|discriminate|discriminate].
    destruct (is_ModuleList t); [|injection Hw as <-; exists ""; auto].
    destruct (nodes w !! v.1) as [nd|]; [|discriminate].
    destruct (attr_name nd) as [c|]; [|discriminate].
    apply IH in Hw as (p & -> & _).
    exists (p +:+ c +:+ "."). split.
    + now rewrite !append_assoc.
    + right. exists (p +:+ c). now rewrite append_assoc.
Qed.

(** X4: a resolved variable name always ends with the "name" attribute of
    the producer of the call's first input; what stands before it is empty or
    ends with ".": the walk only ever prepends a container's name and a
    ".". *)
Theorem resolved_name_ends_with_attribute (fuel : nat) (w : World) (call_node : nat)
    (nd module_node : Node) (v : Value) (module_name name : string)
    (Hcall : nodes w !! call_node = Some nd)
    (Hinput : inputs nd !! 0 = Some v)
    (Hmodule : nodes w !! v.1 = Some module_node)
    (Hattr : attr_name module_node = Some module_name)
    (Hres : GetCallNodeVariableName fuel w call_node = Ok name) :
  exists p, name = p +:+ module_name /\ (p = "" \/ ends_with "." p).
Proof.
  unfold GetCallNodeVariableName, node_at, input in Hres.
  rewrite Hcall in Hres. cbn [or_throw mbind Outcome_bind] in Hres.
  destruct (AT_ASSERT (is_call nd)); cbn [mbind Outcome_bind] in Hres; try discriminate.
  rewrite Hinput in Hres. cbn [or_throw mbind Outcome_bind] in Hres.
  rewrite Hmodule in Hres. cbn [or_throw mbind Outcome_bind] in Hres.
  rewrite Hattr in Hres.
  destruct (inputs module_node) as [|pv rest].
  - injection Hres as <-. exists "". auto.
  - exact (walk_suffix w fuel _ _ _ Hres).
Qed.

Lemma has_type_Ok (w : World) (v : Value) :
  has_type w v = true ->
  exists t nd, type_of w v = Ok t /\ nodes w !! v.1 = Some nd /\ outputs nd !! v.2 = Some t.
Proof.
  unfold has_type, type_of, node_at.
  destruct (nodes w !! v.1) as [nd|]; cbn [or_throw mbind Outcome_bind]; [|discriminate].
  destruct (outputs nd !! v.2) as [t|] eqn:Ht; cbn [or_throw]; [|discriminate].
  intros _. exists t, nd. repeat split. exact Ht.
Qed.

Lemma walk_outcomes (w : World) (rank : nat -> nat)
    (Hvalid : refs_valid w) (Hacyclic : first_input_ranked w rank) :
  forall k pv nm,
    from_option (fun v : Value => has_type w v = true /\ rank v.1 < k) True pv ->
    exists r,
      (forall fuel, k <= fuel -> walk fuel w pv nm = r) /\
      ((exists name, r = Ok name) \/ r = Throw MissingAttribute) /\
      (r = Throw MissingAttribute <-> unnamed_on_walk w pv).
Proof.
  induction k as [|k IH]; intros pv nm Hk.
  - destruct pv as [v|]; [cbn in Hk; lia|].
    exists (Ok nm). split; [intros [|fuel] _; reflexivity|]. split; [eauto|].
    split; [discriminate | inversion 1].
  - destruct pv as [v|].
    2:{ exists (Ok nm). split; [intros [|fuel] _; reflexivity|]. split; [eauto|].
        split; [discriminate | inversion 1]. }
    cbn in Hk. destruct Hk as [Hty Hk].
    apply has_type_Ok in Hty as (t & nd & Hty & Hnd & Hout).
    assert (Hstep := fun fuel => walk_step fuel w v nm).
    rewrite Hty, Hnd in Hstep.
    destruct (is_ModuleList t) eqn:Hml.
    + destruct (attr_name nd) as [c|] eqn:Hc.
      * destruct (IH (head (inputs nd)) (c +:+ "." +:+ nm)) as (r & Hw & Hr & Hiff).
        { pose proof (Hacyclic _ _ Hnd) as Hrk. pose proof (Hvalid _ _ Hnd) as Hin.
          cbn in Hrk, Hin.
          destruct (inputs nd) as [|v' rest]; [exact I|]. cbn in *.
          split; [now inversion Hin | lia]. }
        exists r. split; [|split; [exact Hr|]].
        -- intros [|fuel] Hf; [lia|]. rewrite Hstep. apply Hw. lia.
        -- rewrite Hiff. split.
           ++ intros Hrest. exact (unnamed_further w v t nd c Hty Hml Hnd Hc Hrest).
           ++ inversion 1 as [? ? nd' _ _ Hnd' Hc'|? ? nd' ? _ _ Hnd' _ Hrest]; subst;
                rewrite Hnd in Hnd'; injection Hnd' as <-; [congruence | exact Hrest].
      * exists (Throw MissingAttribute). split; [|split; [now right|]].
        -- intros [|fuel] Hf; [lia|]. now rewrite Hstep.
        -- split; [|reflexivity]. intros _. exact (unnamed_here w v t nd Hty Hml Hnd Hc).
    + exists (Ok nm). split; [|split; [eauto|]].
      * intros [|fuel] Hf; [lia|]. now rewrite Hstep.
      * split; [discriminate|].
        inversion 1 as [? t' ? Ht' Hml' _ _|? t' ? ? Ht' Hml' _ _ _]; subst;
          rewrite Hty in Ht'; injection Ht' as <-; congruence.
Qed.

(** X5: on a store in which every input reads an existing output and no
    cycle runs through first inputs, the resolver, asked about a call
    instruction with at least one input, ends with a name or with the error
    of a missing "name" attribute, and with the error exactly when its walk
    meets a producer of ModuleList type that has no "name" attribute: that
    is the one way it throws.  An unnamed container elsewhere in the store
    does not matter. *)
Theorem resolver_failure_modes (w : World) (rank : nat -> nat) (call_node : nat) (nd : Node)
    (Hvalid : refs_valid w)
    (Hacyclic : first_input_ranked w rank)
    (Hcall : nodes w !! call_node = Some nd)
    (Hkind : is_call nd = true)
    (Hinputs : inputs nd <> []) :
  exists fuel r,
    (forall fuel', fuel <= fuel' -> GetCallNodeVariableName fuel' w call_node = r) /\
    ((exists name, r = Ok name) \/ r = Throw MissingAttribute) /\
    (r = Throw MissingAttribute <-> meets_unnamed_container w call_node).
Proof.
  unfold GetCallNodeVariableName, node_at, input, meets_unnamed_container.
  rewrite Hcall. cbn [or_throw mbind Outcome_bind]. rewrite Hkind.
  cbn [AT_ASSERT mbind Outcome_bind].
  pose proof (Hvalid _ _ Hcall) as Hin. cbn in Hin.
  destruct (inputs nd) as [|v ins] eqn:Hins; [done|].
  cbn [lookup list_lookup or_throw mbind Outcome_bind].
  apply Forall_cons in Hin as [Hv _].
  apply has_type_Ok in Hv as (t & mn & _ & Hmn & _). rewrite Hmn.
  cbn [or_throw mbind Outcome_bind].
  assert (Hpin : forall nd' v' mn',
            Some nd = Some nd' -> inputs nd' !! 0 = Some v' -> nodes w !! v'.1 = Some mn' ->
            mn' = mn).
  { intros nd' v' mn' [= <-] Hv' Hmn'. rewrite Hins in Hv'. cbn in Hv'.
    injection Hv' as <-. congruence. }
  destruct (attr_name mn) as [m|] eqn:Hm.
  2:{ exists 0, (Ok ""). split; [reflexivity|]. split; [eauto|]. split; [discriminate|].
      intros (nd' & v' & mn' & m' & Hnd' & Hv' & Hmn' & Hm' & _).
      rewrite (Hpin nd' v' mn' Hnd' Hv' Hmn') in Hm'. congruence. }
  pose proof (Hvalid _ _ Hmn) as Hmin. cbn in Hmin.
  destruct (inputs mn) as [|pv rest] eqn:Hmi.
  { exists 0, (Ok m). split; [reflexivity|]. split; [eauto|]. split; [discriminate|].
    intros (nd' & v' & mn' & m' & Hnd' & Hv' & Hmn' & _ & Hwalk).
    rewrite (Hpin nd' v' mn' Hnd' Hv' Hmn'), Hmi in Hwalk. inversion Hwalk. }
  destruct (walk_outcomes w rank Hvalid Hacyclic (S (rank pv.1)) (Some pv) m)
    as (r & Hw & Hr & Hiff).
  { cbn. split; [now inversion Hmin | lia]. }
  exists (S (rank pv.1)), r. split; [exact Hw|]. split; [exact Hr|].
  rewrite Hiff. split.
  - intros Hwalk. exists (mkNode (kind nd) (v :: ins) (outputs nd) (attr_name nd) (scope nd)
                            (blocks nd)), v, mn, m.
    repeat split; try assumption; [|now rewrite Hmi].
    f_equal. destruct nd. cbn in *. now subst.
  - intros (nd' & v' & mn' & m' & Hnd' & Hv' & Hmn' & _ & Hwalk).
    rewrite (Hpin nd' v' mn' Hnd' Hv' Hmn'), Hmi in Hwalk. exact Hwalk.
Qed.

(** ** The scope of a call *)

Section CallScope.
Variable createFullScopeName : string -> string -> string.

Lemma run_SetScopeGuardForCall (fuel graph cur : nat) (w : World) (nd : Node) (v : Value)
    (t : Type_) (type_name : option QualifiedName) :
  nodes w !! cur = Some nd -> is_call nd = true -> inputs nd !! 0 = Some v ->
  type_of w v = Ok t -> named_type_name t = Ok type_name ->
  SetScopeGuardForCall createFullScopeName fuel graph cur w =
    (w, variable_name ← GetCallNodeVariableName fuel w cur;
        g ← graph_at w graph;
        Ok (ScopePush (current_scope g)
              (createFullScopeName (TidyClassNameFromTorchScript type_name) variable_name))).
Proof.
  intros Hcur Hkind Hin Hty Hnamed. unfold SetScopeGuardForCall.
  rewrite (run_get_node _ _ _ _ Hcur), run_read, Hkind. cbn [AT_ASSERT].
  rewrite run_read. unfold input at 1. rewrite Hin. cbn [or_throw].
  rewrite run_read, Hty, run_read, Hnamed, run_read.
  destruct (GetCallNodeVariableName fuel w cur) as [name|e|];
    cbn [mbind Outcome_bind]; [|reflexivity|reflexivity].
  rewrite run_read. destruct (graph_at w graph); reflexivity.
Qed.

(** X6: the scope of a call composes the two naming functions and nothing
    else: for a call instruction whose first input has a named type, the
    scope is the caller graph's current scope with one frame pushed, labelled
    by [createFullScopeName] from the tidied type name and the resolved
    variable name; it fails exactly as the resolver fails; computing it
    leaves the store as it was; and it is never a blank scope. *)
Theorem call_scope_composes (fuel graph cur : nat) (w : World) (nd : Node) (v : Value)
    (t : Type_) (type_name : option QualifiedName) (g : Graph)
    (Hcur : nodes w !! cur = Some nd)
    (Hkind : is_call nd = true)
    (Hin : inputs nd !! 0 = Some v)
    (Hty : type_of w v = Ok t)
    (Hnamed : named_type_name t = Ok type_name)
    (Hg : graphs w !! graph = Some g) :
  SetScopeGuardForCall createFullScopeName fuel graph cur w =
    (w, match GetCallNodeVariableName fuel w cur with
        | Ok variable_name =>
            Ok (ScopePush (current_scope g)
                  (createFullScopeName (TidyClassNameFromTorchScript type_name)
                     variable_name))
        | Throw e => Throw e
        | OutOfFuel => OutOfFuel
        end) /\
  (forall s, (SetScopeGuardForCall createFullScopeName fuel graph cur w).2 = Ok s ->
             isBlank s = false).
Proof.
  rewrite (run_SetScopeGuardForCall _ _ _ _ _ _ _ _ Hcur Hkind Hin Hty Hnamed).
  unfold graph_at. rewrite Hg. cbn [or_throw].
  split.
  - destruct (GetCallNodeVariableName fuel w cur); reflexivity.
  - intros s. cbn [snd].
    destruct (GetCallNodeVariableName fuel w cur); cbn [mbind Outcome_bind];
      [|discriminate|discriminate].
    now intros [= <-].
Qed.

(** X7: the scope of a method call is computed before the pass looks whether
    the method has a graph body.  So a method call on an object of a class
    that has the method aborts the pass when the variable name cannot be
    resolved, also when the method has no body and nothing would be inlined;
    the store is as it was, and the loop over the block stops there. *)
Theorem unresolved_name_aborts_method_call (fuel : nat) (recurse : nat -> M unit)
    (graph cur : nat) (w : World) (nd : Node) (v : Value)
    (cname : option QualifiedName) (methods : list (string * Function)) (name : string)
    (f : Function) (e : Error) (rest : list nat)
    (Hcur : nodes w !! cur = Some nd)
    (Hkind : kind nd = "prim::CallMethod")
    (Hname : attr_name nd = Some name)
    (Hin : inputs nd !! 0 = Some v)
    (Hty : type_of w v = Ok (ClassType cname methods))
    (Hfound : getMethod methods name = Ok f)
    (Hres : GetCallNodeVariableName fuel w cur = Throw e) :
  visit createFullScopeName fuel recurse graph cur w = (w, Throw e) /\
  for_each (visit createFullScopeName fuel recurse graph) (cur :: rest) w = (w, Throw e).
Proof.
  assert (Hv : visit createFullScopeName fuel recurse graph cur w = (w, Throw e)).
  { rewrite (visit_CallMethod _ _ _ _ _ _ _ Hcur Hkind). unfold call_method.
    rewrite (run_get_node _ _ _ _ Hcur), run_read.
    unfold s_name. rewrite Hname. cbn [or_throw].
    rewrite run_read. unfold input. rewrite Hin. cbn [or_throw].
    rewrite run_read, Hty, run_read, Hfound, run_bind.
    assert (Hcall : is_call nd = true).
    { unfold is_call. rewrite Hkind. reflexivity. }
    rewrite (run_SetScopeGuardForCall _ _ _ _ _ _ _ _ Hcur Hcall Hin Hty eq_refl), Hres.
    reflexivity. }
  split; [exact Hv|]. cbn [for_each]. now rewrite run_bind, Hv.
Qed.

(** ** Function calls the pass cannot handle *)

(** X8: a function call whose first input is not produced by a constant of
    function type aborts the pass before anything is changed: the assertion
    fails when the producer is not a [prim::Constant], and the cast fails when
    the constant is not of function type. *)
Theorem ill_formed_function_call_aborts (fuel : nat) (recurse : nat -> M unit)
    (graph cur : nat) (w : World) (nd cn : Node) (v : Value) (rest : list nat)
    (Hcur : nodes w !! cur = Some nd)
    (Hkind : kind nd = "prim::CallFunction")
    (Hin : inputs nd !! 0 = Some v)
    (Hc : nodes w !! v.1 = Some cn)
    (Hbad : kind cn <> "prim::Constant" \/ forall f, outputs cn <> [FunctionType f]) :
  let e := if String.eqb (kind cn) "prim::Constant"
           then match outputs cn with [_] => BadCast | _ => AssertionFailed end
           else AssertionFailed in
  visit createFullScopeName fuel recurse graph cur w = (w, Throw e) /\
  for_each (visit createFullScopeName fuel recurse graph) (cur :: rest) w = (w, Throw e).
Proof.
  intros e.
  assert (Hv : visit createFullScopeName fuel recurse graph cur w = (w, Throw e)).
  { rewrite (visit_CallFunction _ _ _ _ _ _ _ Hcur Hkind). unfold call_function.
    rewrite (run_get_node _ _ _ _ Hcur), run_read.
    unfold input. rewrite Hin. cbn [or_throw].
    rewrite (run_get_node _ _ _ _ Hc), run_read. subst e.
    destruct (String.eqb (kind cn) "prim::Constant") eqn:Hk; cbn [AT_ASSERT]; [|reflexivity].
    apply String.eqb_eq in Hk. destruct Hbad as [Hbad|Hbad]; [done|].
    rewrite run_read. unfold output.
    destruct (outputs cn) as [|t [|t' ts]]; [reflexivity| |reflexivity].
    destruct t as [| f | |]; try reflexivity. now destruct (Hbad f). }
  split; [exact Hv|]. cbn [for_each]. now rewrite run_bind, Hv.
Qed.

(** X9: a function call to a function without a graph body, other than
    interpolate, is given up half way: the pass first detaches the function
    input from the call and, if nothing else reads it, destroys the constant;
    only then does taking the callee's graph fail.  The store the exception
    leaves behind holds the call without its first input. *)
Theorem builtin_callee_aborts_half_way (fuel : nat) (recurse : nat -> M unit)
    (graph cur c i : nat) (w : World) (nd cn : Node) (rest : list Value) (f : Function)
    (Hcur : nodes w !! cur = Some nd)
    (Hkind : kind nd = "prim::CallFunction")
    (Hinputs : inputs nd = (c, i) :: rest)
    (Hc : nodes w !! c = Some cn)
    (Hckind : kind cn = "prim::Constant")
    (Hctype : outputs cn = [FunctionType f])
    (Hcblocks : blocks cn = [])
    (Hgeneric : is_interpolate f = false)
    (Hbuiltin : function_graph f = None) :
  exists w',
    visit createFullScopeName fuel recurse graph cur w = (w', Throw AssertionFailed) /\
    nodes w' !! cur = Some (with_inputs rest nd) /\
    (unused_without w cur c rest = true -> nodes w' !! c = None) /\
    (unused_without w cur c rest = false -> nodes w' !! c = Some cn) /\
    w' <> w.
Proof.
  pose proof (head_remove cur c i w nd rest Hcur Hinputs) as Hrm.
  pose proof (head_destroy cur c i w nd cn rest f Hcur Hkind Hinputs Hc Hckind Hctype Hcblocks)
    as Hds.
  pose proof (w2_cur cur c i w nd cn rest f Hcur Hkind Hinputs Hc Hckind Hctype Hcblocks)
    as Hw2.
  pose proof (const_not_cur cur c i w nd cn rest f Hcur Hkind Hinputs Hc Hckind Hctype Hcblocks)
    as Hne.
  eexists. split; [|split; [exact Hw2|split; [|split]]].
  - rewrite (visit_CallFunction _ _ _ _ _ _ _ Hcur Hkind). unfold call_function.
    rewrite (run_get_node _ _ _ _ Hcur), run_read.
    unfold input. rewrite Hinputs. cbn [lookup list_lookup or_throw fst].
    rewrite (run_get_node _ _ _ _ Hc), run_read, Hckind. cbn [String.eqb Ascii.eqb AT_ASSERT].
    rewrite run_read. unfold output. rewrite Hctype, Hgeneric.
    unfold inline_function.
    rewrite (run_get_node _ _ _ _ Hcur), run_read.
    unfold input. rewrite Hinputs. cbn [lookup list_lookup or_throw fst].
    rewrite run_bind, Hrm, run_bind, Hds, run_read, Hbuiltin. reflexivity.
  - intros Hu. rewrite Hu. cbn. apply lookup_delete_eq.
  - intros Hu. rewrite Hu. cbn. now rewrite lookup_alter_ne by done.
  - intros Heq. rewrite Heq, Hcur in Hw2. injection Hw2 as Hw2.
    apply (f_equal inputs) in Hw2. cbn in Hw2. rewrite Hinputs in Hw2.
    apply (f_equal length) in Hw2. cbn in Hw2. lia.
Qed.

(** X10: the resolver and the scope of a call are for call instructions
    only: asked about a live instruction of another kind, both fail their
    assertion, the latter without touching the store. *)
Theorem call_kind_asserted (fuel graph n : nat) (w : World) (nd : Node)
    (Hn : nodes w !! n = Some nd)
    (Hkind : is_call nd = false) :
  GetCallNodeVariableName fuel w n = Throw AssertionFailed /\
  SetScopeGuardForCall createFullScopeName fuel graph n w = (w, Throw AssertionFailed).
Proof.
  split.
  - unfold GetCallNodeVariableName, node_at. rewrite Hn. cbn [or_throw mbind Outcome_bind].
    now rewrite Hkind.
  - unfold SetScopeGuardForCall. rewrite (run_get_node _ _ _ _ Hn), run_read.
    now rewrite Hkind.
Qed.

(** X11: the method name is read before the receiver is looked at: a method
    call without a "name" attribute aborts the pass whatever its receiver is,
    and leaves the store as it was. *)
Theorem nameless_method_call_aborts (fuel : nat) (recurse : nat -> M unit)
    (graph cur : nat) (w : World) (nd : Node) (rest : list nat)
    (Hcur : nodes w !! cur = Some nd)
    (Hkind : kind nd = "prim::CallMethod")
    (Hname : attr_name nd = None) :
  visit createFullScopeName fuel recurse graph cur w = (w, Throw MissingAttribute) /\
  for_each (visit createFullScopeName fuel recurse graph) (cur :: rest) w =
    (w, Throw MissingAttribute).
Proof.
  assert (Hv : visit createFullScopeName fuel recurse graph cur w =
               (w, Throw MissingAttribute)).
  { rewrite (visit_CallMethod _ _ _ _ _ _ _ Hcur Hkind). unfold call_method.
    rewrite (run_get_node _ _ _ _ Hcur), run_read.
    unfold s_name. now rewrite Hname. }
  split; [exact Hv|]. cbn [for_each]. now rewrite run_bind, Hv.
Qed.

End CallScope.

(** ** Blocks without calls *)

#[global] Instance same_shape_preorder : PreOrder same_shape.
Proof.
  split.
  - intros w. repeat split.
  - intros a b c (H1 & H2 & H3) (H4 & H5 & H6). repeat split; congruence.
Qed.

Lemma same_shape_lookup (w w' : World) (x : nat) :
  same_shape w w' ->
  with_scope (ScopeRoot "") <$> nodes w' !! x = with_scope (ScopeRoot "") <$> nodes w !! x.
Proof. intros (_ & _ & H). now rewrite <- !lookup_fmap, H. Qed.

Lemma same_shape_node (w w' : World) (x : nat) (nd : Node) :
  same_shape w w' -> nodes w !! x = Some nd ->
  exists nd', nodes w' !! x = Some nd' /\ kind nd' = kind nd /\ blocks nd' = blocks nd.
Proof.
  intros Hs Hx. pose proof (same_shape_lookup w w' x Hs) as H. rewrite Hx in H.
  destruct (nodes w' !! x) as [nd'|]; [|discriminate]. cbn in H. injection H as Hk _ _ _ Hb.
  exists nd'. repeat split; assumption.
Qed.

Lemma with_scope_twice (s s' : Scope) (nd : Node) :
  with_scope s (with_scope s' nd) = with_scope s nd.
Proof. reflexivity. Qed.

Lemma stamp_nil (s : Scope) (w : World) : stamp s [] w = w.
Proof. now destruct w. Qed.

Lemma stamp_shape (s : Scope) (l : list nat) (w : World) : same_shape w (stamp s l w).
Proof.
  revert w. induction l as [|x l IH]; intros w; [rewrite stamp_nil; reflexivity|].
  unfold stamp. cbn [foldl].
  etransitivity; [|apply (IH (set_nodes (fun m => if isBlank s then m else alter (with_scope s) x m) w))].
  repeat split. cbn. destruct (isBlank s); [reflexivity|].
  apply map_eq. intros i. rewrite !lookup_fmap.
  destruct (decide (i = x)) as [->|Hne].
  - rewrite lookup_alter_eq. now destruct (nodes w !! x).
  - now rewrite lookup_alter_ne.
Qed.

Lemma stamp_app (s : Scope) (l1 l2 : list nat) (w : World) :
  stamp s l2 (stamp s l1 w) = stamp s (l1 ++ l2)%list w.
Proof. unfold stamp, set_nodes. cbn. now rewrite foldl_app. Qed.

Lemma stamp_lookup (s : Scope) (l : list nat) (w : World) (x : nat) :
  nodes (stamp s l w) !! x =
    if decide (isBlank s = false /\ x ∈ l) then with_scope s <$> nodes w !! x
    else nodes w !! x.
Proof.
  revert w. induction l as [|y l IH]; intros w.
  - cbn. rewrite decide_False; [reflexivity|]. intros [_ H]. now apply elem_of_nil in H.
  - change (stamp s (y :: l) w)
      with (stamp s l (set_nodes (fun m => if isBlank s then m else alter (with_scope s) y m) w)).
    rewrite IH. cbn. destruct (isBlank s) eqn:Hb.
    + rewrite !decide_False by (intros [? _]; discriminate). reflexivity.
    + destruct (decide (x = y)) as [->|Hne].
      * rewrite lookup_alter_eq.
        rewrite (decide_True (P := false = false /\ y ∈ y :: l)) by (split; [done|set_solver]).
        case_decide; [|reflexivity]. now destruct (nodes w !! y).
      * rewrite lookup_alter_ne by done.
        destruct (decide (false = false /\ x ∈ l)) as [[_ Hl]|Hn].
        -- rewrite decide_True by (split; [done | now apply list_elem_of_further]).
           reflexivity.
        -- rewrite decide_False; [reflexivity|]. intros [_ Hl]. apply Hn. split; [done|].
           apply elem_of_cons in Hl as [Hl|Hl]; [done | exact Hl].
Qed.

Lemma forallb_ext_in {A} (f g : A -> bool) (l : list A) :
  (forall x, x ∈ l -> f x = g x) -> forallb f l = forallb g l.
Proof.
  induction l as [|a l IH]; intros H; [reflexivity|].
  cbn. rewrite (H a), IH; [reflexivity| |]; set_solver.
Qed.

Lemma call_free_shape (n : nat) (w w' : World) (graph : nat) :
  same_shape w w' -> forall b, call_free n w' graph b = call_free n w graph b.
Proof.
  intros Hs. induction n as [|n IH]; intros b; [reflexivity|].
  cbn [call_free]. rewrite (proj1 Hs).
  destruct (block_store w !! b) as [blk|]; [|reflexivity]. f_equal.
  apply forallb_ext_in. intros x _.
  destruct (nodes w !! x) as [nd|] eqn:Hx.
  - destruct (same_shape_node w w' x nd Hs Hx) as (nd' & -> & Hk & Hb).
    unfold is_plain. rewrite Hk, Hb. f_equal. apply forallb_ext_in. intros b' _. apply IH.
  - pose proof (same_shape_lookup w w' x Hs) as H. rewrite Hx in H.
    now destruct (nodes w' !! x).
Qed.

Lemma flat_map_ext_in {A B} (f g : A -> list B) (l : list A) :
  (forall x, x ∈ l -> f x = g x) -> flat_map f l = flat_map g l.
Proof.
  induction l as [|a l IH]; intros H; [reflexivity|].
  cbn. rewrite (H a), IH; [reflexivity| |]; set_solver.
Qed.

Lemma visited_shape (n : nat) (w w' : World) :
  same_shape w w' -> forall b, visited n w' b = visited n w b.
Proof.
  intros Hs. induction n as [|n IH]; intros b; [reflexivity|].
  cbn [visited]. rewrite (proj1 Hs).
  destruct (block_store w !! b) as [blk|]; [|reflexivity].
  apply flat_map_ext_in. intros x _. f_equal.
  destruct (nodes w !! x) as [nd|] eqn:Hx.
  - destruct (same_shape_node w w' x nd Hs Hx) as (nd' & -> & Hk & Hb).
    rewrite Hb. apply flat_map_ext_in. intros b' _. apply IH.
  - pose proof (same_shape_lookup w w' x Hs) as H. rewrite Hx in H.
    now destruct (nodes w' !! x).
Qed.

Section Plain.
Variable createFullScopeName : string -> string -> string.

Lemma plain_blocks (n graph : nat) (g : Graph) (w : World)
    (IH : forall w1 b, call_free n w1 graph b = true -> graphs w1 !! graph = Some g ->
            functionCallSubstitution createFullScopeName n b w1 =
              (stamp (current_scope g) (visited n w1 b) w1, Ok tt)) :
  forall bs w1,
    same_shape w w1 -> graphs w !! graph = Some g ->
    forallb (call_free n w graph) bs = true ->
    for_each (functionCallSubstitution createFullScopeName n) bs w1 =
      (stamp (current_scope g) (flat_map (visited n w) bs) w1, Ok tt).
Proof.
  induction bs as [|b bs IHbs]; intros w1 Hs Hg Hfree.
  - cbn [for_each flat_map]. now rewrite stamp_nil.
  - cbn [forallb] in Hfree. apply andb_prop in Hfree as [Hb Hbs].
    cbn [for_each flat_map]. rewrite run_bind, IH; cycle 1.
    { now rewrite (call_free_shape n w w1 graph Hs). }
    { now rewrite (proj1 (proj2 Hs)). }
    rewrite (visited_shape n w w1 Hs).
    rewrite IHbs; [|etransitivity; [exact Hs|apply stamp_shape]|exact Hg|exact Hbs].
    now rewrite stamp_app.
Qed.

Lemma plain_nodes (n graph : nat) (g : Graph) (w : World)
    (IH : forall w1 b, call_free n w1 graph b = true -> graphs w1 !! graph = Some g ->
            functionCallSubstitution createFullScopeName n b w1 =
              (stamp (current_scope g) (visited n w1 b) w1, Ok tt)) :
  let each x :=
    x :: match nodes w !! x with
         | Some nd => flat_map (visited n w) (blocks nd)
         | None => []
         end in
  forall l w1,
    same_shape w w1 -> graphs w !! graph = Some g ->
    forallb (fun x => match nodes w !! x with
                      | Some nd => is_plain nd && forallb (call_free n w graph) (blocks nd)
                      | None => false
                      end) l = true ->
    for_each (visit createFullScopeName n (functionCallSubstitution createFullScopeName n) graph)
      l w1 = (stamp (current_scope g) (flat_map each l) w1, Ok tt).
Proof.
  intros each. induction l as [|x l IHl]; intros w1 Hs Hg Hfree.
  - cbn [for_each flat_map]. now rewrite stamp_nil.
  - cbn [forallb] in Hfree. apply andb_prop in Hfree as [Hx Hl].
    destruct (nodes w !! x) as [nd|] eqn:Hnd; [|discriminate].
    apply andb_prop in Hx as [Hplain Hblocks].
    destruct (same_shape_node w w1 x nd Hs Hnd) as (nd1 & Hnd1 & Hk & Hb).
    assert (Hg1 : graphs w1 !! graph = Some g) by now rewrite (proj1 (proj2 Hs)).
    cbn [for_each flat_map]. rewrite run_bind.
    assert (Hvisit :
      visit createFullScopeName n (functionCallSubstitution createFullScopeName n) graph x w1 =
        (stamp (current_scope g) (each x) w1, Ok tt)).
    { unfold is_plain in Hplain. apply andb_prop in Hplain as [Hf Hm].
      apply negb_true_iff, String.eqb_neq in Hf, Hm. rewrite <- Hk in Hf, Hm.
      rewrite (visit_other _ _ _ _ _ _ _ Hnd1 Hf Hm). unfold other_node.
      rewrite run_read. unfold graph_at. rewrite Hg1. cbn [or_throw].
      rewrite run_bind.
      set (w2 := stamp (current_scope g) [x] w1).
      assert (Hstep : (if isBlank (current_scope g) then mret tt
                       else update_node x (with_scope (current_scope g))) w1 = (w2, Ok tt)).
      { subst w2. unfold stamp. cbn [foldl]. destruct (isBlank (current_scope g)).
        - cbn. unfold set_nodes. now destruct w1.
        - reflexivity. }
      rewrite Hstep.
      assert (Hs2 : same_shape w w2) by (etransitivity; [exact Hs|apply stamp_shape]).
      destruct (same_shape_node w w2 x nd Hs2 Hnd) as (nd2 & Hnd2 & _ & Hb2).
      rewrite (run_get_node _ _ _ _ Hnd2), Hb2.
      rewrite (plain_blocks n graph g w IH (blocks nd) w2 Hs2 Hg Hblocks).
      subst w2 each. cbn beta. rewrite Hnd, stamp_app. reflexivity. }
    rewrite Hvisit.
    rewrite IHl; [|etransitivity; [exact Hs|apply stamp_shape]|exact Hg|exact Hl].
    now rewrite stamp_app.
Qed.

Lemma plain_pass (n graph : nat) (g : Graph) :
  forall w b,
    call_free n w graph b = true -> graphs w !! graph = Some g ->
    functionCallSubstitution createFullScopeName n b w =
      (stamp (current_scope g) (visited n w b) w, Ok tt).
Proof.
  induction n as [|n IH]; intros w b Hfree Hg; [discriminate|].
  cbn [call_free] in Hfree. cbn [functionCallSubstitution visited].
  rewrite run_read. unfold block_at.
  destruct (block_store w !! b) as [blk|]; [|discriminate]. cbn [or_throw].
  apply andb_prop in Hfree as [Hown Hnodes]. apply bool_decide_eq_true in Hown. rewrite Hown.
  exact (plain_nodes n graph g w IH (block_nodes blk) w (reflexivity w) Hg Hnodes).
Qed.


Lemma stamp_blank (s : Scope) (l : list nat) (w : World) :
  isBlank s = true -> stamp s l w = w.
Proof.
  intros Hs. unfold stamp. rewrite Hs. destruct w as [ns bs gs]. unfold set_nodes. cbn.
  f_equal. induction l as [|x l IH]; [reflexivity | exact IH].
Qed.

Lemma stamp_idem (s : Scope) (l : list nat) (w : World) :
  stamp s l (stamp s l w) = stamp s l w.
Proof.
  rewrite stamp_app.
  pose proof (fun x => stamp_lookup s (l ++ l)%list w x) as H2.
  pose proof (fun x => stamp_lookup s l w x) as H1.
  destruct w as [ns bs gs]. unfold stamp, set_nodes in *. cbn in *.
  f_equal. apply map_eq. intros x. rewrite H1, H2.
  destruct (decide (isBlank s = false /\ x ∈ l)) as [[Hb Hl]|Hn].
  - rewrite decide_True; [reflexivity|]. split; [exact Hb|]. apply elem_of_app. now left.
  - rewrite decide_False; [reflexivity|]. intros [Hb Hl]. apply Hn. split; [exact Hb|].
    apply elem_of_app in Hl as [Hl|Hl]; exact Hl.
Qed.

Lemma stamp_graphs (graph : nat) (s s' : Scope) (l : list nat) (w : World) :
  set_current_scope graph s' (stamp s l w) = stamp s l (set_current_scope graph s' w).
Proof. reflexivity. Qed.

Lemma call_free_store (n : nat) (w w' : World) (graph : nat) :
  nodes w' = nodes w -> block_store w' = block_store w ->
  forall b, call_free n w' graph b = call_free n w graph b.
Proof.
  intros Hn Hb. induction n as [|n IH]; intros b; [reflexivity|].
  cbn [call_free]. rewrite Hn, Hb.
  destruct (block_store w !! b) as [blk|]; [|reflexivity]. f_equal.
  apply forallb_ext_in. intros x _. destruct (nodes w !! x) as [nd|]; [|reflexivity].
  f_equal. apply forallb_ext_in. intros b' _. apply IH.
Qed.

Lemma visited_store (n : nat) (w w' : World) :
  nodes w' = nodes w -> block_store w' = block_store w ->
  forall b, visited n w' b = visited n w b.
Proof.
  intros Hn Hb. induction n as [|n IH]; intros b; [reflexivity|].
  cbn [visited]. rewrite Hn, Hb.
  destruct (block_store w !! b) as [blk|]; [|reflexivity].
  apply flat_map_ext_in. intros x _. f_equal. destruct (nodes w !! x) as [nd|]; [|reflexivity].
  apply flat_map_ext_in. intros b' _. apply IH.
Qed.

Lemma run_top_level (n graph : nat) (g : Graph) (blk : Block) (params : Node) (w : World) :
  graphs w !! graph = Some g ->
  block_store w !! block g = Some blk ->
  nodes w !! param_node blk = Some params ->
  call_free n w graph (block g) = true ->
  ONNXFunctionCallSubstitution createFullScopeName n graph w =
    (stamp (top_level_scope createFullScopeName g (outputs params)) (visited n w (block g)) w,
     Ok tt).
Proof.
  intros Hg Hb Hp Hfree. unfold ONNXFunctionCallSubstitution.
  set (s := top_level_scope createFullScopeName g (outputs params)).
  assert (Hguard : ONNXGraphTopLevelScopeGuard createFullScopeName graph w = (w, Ok s)).
  { unfold ONNXGraphTopLevelScopeGuard. rewrite run_read. unfold graph_at. rewrite Hg.
    cbn [or_throw]. rewrite run_read. unfold block_at. rewrite Hb. cbn [or_throw].
    rewrite (run_get_node _ _ _ _ Hp). subst s. unfold top_level_scope.
    destruct (outputs params) as [|[] ts]; reflexivity. }
  rewrite run_bind, Hguard. unfold WithCurrentScope, graph_at. rewrite Hg. cbn [or_throw].
  set (w1 := set_current_scope graph s w).
  assert (Hg1 : graphs w1 !! graph = Some (mkGraph (block g) s)).
  { subst w1. cbn. now rewrite lookup_alter_eq, Hg. }
  rewrite run_read. unfold graph_at. rewrite Hg1. cbn [or_throw block].
  rewrite (plain_pass n graph (mkGraph (block g) s) w1 (block g)); [|
    now rewrite (call_free_store n w w1 graph eq_refl eq_refl) | exact Hg1].
  cbn [current_scope]. rewrite (visited_store n w w1 eq_refl eq_refl).
  rewrite stamp_graphs. subst w1. now rewrite (set_current_scope_undo graph g s w Hg).
Qed.

(** X12: on a block that, with the blocks nested in it, holds no call, the
    pass returns and only writes scopes: blocks and graphs are as before, and
    a node differs from before only if it was visited and the graph's current
    scope is not blank, and then only by carrying that scope.  With a blank
    current scope nothing changes at all. *)
Theorem call_free_block_only_rescoped (n graph : nat) (g : Graph) (w : World) (b : nat)
    (Hfree : call_free n w graph b = true)
    (Hg : graphs w !! graph = Some g) :
  exists w',
    functionCallSubstitution createFullScopeName n b w = (w', Ok tt) /\
    block_store w' = block_store w /\ graphs w' = graphs w /\
    (forall x,
       nodes w' !! x =
         if decide (isBlank (current_scope g) = false /\ x ∈ visited n w b)
         then with_scope (current_scope g) <$> nodes w !! x
         else nodes w !! x) /\
    (isBlank (current_scope g) = true -> w' = w).
Proof.
  exists (stamp (current_scope g) (visited n w b) w).
  split; [exact (plain_pass n graph g w b Hfree Hg)|].
  split; [reflexivity|]. split; [reflexivity|].
  split; [intros x; apply stamp_lookup | apply stamp_blank].
Qed.

(** X13: on a graph without calls the whole pass returns and only writes
    scopes.  The scope written is the top-level one: the graph's current scope
    with a frame pushed for the tidied class name of the first graph input
    and the empty variable name when that input is an object of a class, and
    the graph's current scope itself otherwise, also when the graph has no
    input.  Blocks and graphs, the graph's current scope included, are as
    before; if the scope is blank the store is unchanged. *)
Theorem call_free_graph_rescoped (n graph : nat) (g : Graph) (blk : Block) (params : Node)
    (w : World)
    (Hg : graphs w !! graph = Some g)
    (Hb : block_store w !! block g = Some blk)
    (Hp : nodes w !! param_node blk = Some params)
    (Hfree : call_free n w graph (block g) = true) :
  let s := top_level_scope createFullScopeName g (outputs params) in
  exists w',
    ONNXFunctionCallSubstitution createFullScopeName n graph w = (w', Ok tt) /\
    block_store w' = block_store w /\ graphs w' = graphs w /\
    (forall x,
       nodes w' !! x =
         if decide (isBlank s = false /\ x ∈ visited n w (block g))
         then with_scope s <$> nodes w !! x
         else nodes w !! x) /\
    (isBlank s = true -> w' = w).
Proof.
  intros s. exists (stamp s (visited n w (block g)) w).
  split; [exact (run_top_level n graph g blk params w Hg Hb Hp Hfree)|].
  split; [reflexivity|]. split; [reflexivity|].
  split; [intros x; apply stamp_lookup | apply stamp_blank].
Qed.

(** X14: on a graph without calls the pass is idempotent: run on its own
    result it returns that result. *)
Theorem call_free_pass_idempotent (n graph : nat) (g : Graph) (blk : Block) (params : Node)
    (w : World)
    (Hg : graphs w !! graph = Some g)
    (Hb : block_store w !! block g = Some blk)
    (Hp : nodes w !! param_node blk = Some params)
    (Hfree : call_free n w graph (block g) = true) :
  exists w',
    ONNXFunctionCallSubstitution createFullScopeName n graph w = (w', Ok tt) /\
    ONNXFunctionCallSubstitution createFullScopeName n graph w' = (w', Ok tt).
Proof.
  set (s := top_level_scope createFullScopeName g (outputs params)).
  set (w' := stamp s (visited n w (block g)) w).
  assert (Hs : same_shape w w') by apply stamp_shape.
  exists w'. split; [exact (run_top_level n graph g blk params w Hg Hb Hp Hfree)|].
  assert (Hp' : exists params', nodes w' !! param_node blk = Some params' /\
                                outputs params' = outputs params).
  { subst w'. rewrite stamp_lookup, Hp. case_decide; eexists; split; reflexivity. }
  destruct Hp' as (params' & Hp' & Hout).
  rewrite (run_top_level n graph g blk params' w'); [| exact Hg | exact Hb | exact Hp' |
    now rewrite (call_free_shape n w w' graph Hs)].
  rewrite Hout, (visited_shape n w w' Hs). fold s. subst w'. now rewrite stamp_idem.
Qed.

(** X15: no scope is set up for a function call: no frame is pushed, and
    the current scope of the callee's graph is left as it happens to be.  The
    body of the called function is processed under that scope and is then
    inlined: when the body holds no call, handling the call amounts to
    stamping the body with the callee graph's current scope and inlining it,
    in the store from which the call's function input is already
    detached. *)
Theorem function_call_callee_own_scope (n graph cur c i callee : nat) (w : World)
    (nd cn : Node) (rest : list Value) (f : Function) (cg : Graph)
    (Hcur : nodes w !! cur = Some nd)
    (Hkind : kind nd = "prim::CallFunction")
    (Hinputs : inputs nd = (c, i) :: rest)
    (Hc : nodes w !! c = Some cn)
    (Hckind : kind cn = "prim::Constant")
    (Hctype : outputs cn = [FunctionType f])
    (Hcblocks : blocks cn = [])
    (Hgeneric : is_interpolate f = false)
    (Hbody : function_graph f = Some callee)
    (Hcg : graphs w !! callee = Some cg)
    (Hfree : call_free n (detached w cur c rest) callee (block cg) = true) :
  visit createFullScopeName n (functionCallSubstitution createFullScopeName n) graph cur w =
    inlineCallTo n graph cur callee
      (stamp (current_scope cg) (visited n (detached w cur c rest) (block cg))
         (detached w cur c rest)).
Proof.
  pose proof (head_remove cur c i w nd rest Hcur Hinputs) as Hrm.
  pose proof (head_destroy cur c i w nd cn rest f Hcur Hkind Hinputs Hc Hckind Hctype Hcblocks)
    as Hds.
  fold (detached w cur c rest) in Hds.
  assert (Hcg2 : graphs (detached w cur c rest) !! callee = Some cg).
  { unfold detached. destruct (unused_without w cur c rest); exact Hcg. }
  rewrite (visit_CallFunction _ _ _ _ _ _ _ Hcur Hkind). unfold call_function.
  rewrite (run_get_node _ _ _ _ Hcur), run_read.
  unfold input. rewrite Hinputs. cbn [lookup list_lookup or_throw fst].
  rewrite (run_get_node _ _ _ _ Hc), run_read, Hckind. cbn [String.eqb Ascii.eqb AT_ASSERT].
  rewrite run_read. unfold output. rewrite Hctype, Hgeneric.
  unfold inline_function.
  rewrite (run_get_node _ _ _ _ Hcur), run_read.
  unfold input. rewrite Hinputs. cbn [lookup list_lookup or_throw fst].
  rewrite run_bind, Hrm, run_bind, Hds, run_read, Hbody. cbn [or_throw].
  rewrite run_read. unfold graph_at. rewrite Hcg2. cbn [or_throw].
  rewrite run_bind, (plain_pass n callee cg _ _ Hfree Hcg2). reflexivity.
Qed.

End Plain.

(** ** Which callee counts as interpolate *)

Lemma substring_prefix (n : nat) :
  forall s t, substring 0 n s = t -> String.length t = n -> exists q, s = t +:+ q.
Proof.
  induction n as [|n IH]; intros s t Hs Ht.
  - destruct t; [|discriminate]. exists s. reflexivity.
  - destruct s as [|c s]; cbn in Hs; subst t; [discriminate|].
    cbn in Ht. injection Ht as Ht.
    destruct (IH s _ eq_refl Ht) as (q & Hq). exists q.
    change (String c s = String c (substring 0 n s +:+ q)). now f_equal.
Qed.

Lemma substring_occurs (m : nat) :
  forall n s t, substring m n s = t -> String.length t = n -> occurs_in t s.
Proof.
  induction m as [|m IH]; intros n s t Hs Ht.
  - destruct (substring_prefix n s t Hs Ht) as (q & ->). exists "", q. reflexivity.
  - destruct s as [|c s]; cbn in Hs.
    + subst t. exists "", "". reflexivity.
    + destruct (IH n s t Hs Ht) as (p & q & ->). exists (String c p), q. reflexivity.
Qed.

Lemma substring_head (sub : string) :
  forall q, substring 0 (String.length sub) (sub +:+ q) = sub.
Proof.
  induction sub as [|c sub IH]; intros q; [now destruct q|].
  change (String c (substring 0 (String.length sub) (sub +:+ q)) = String c sub).
  now rewrite IH.
Qed.

Lemma substring_at (p sub q : string) :
  substring (String.length p) (String.length sub) (p +:+ sub +:+ q) = sub.
Proof.
  induction p as [|c p IH]; [exact (substring_head sub q) | exact IH].
Qed.

Lemma contains_occurs (sub s : string) :
  sub <> "" -> contains sub s = true <-> occurs_in sub s.
Proof.
  intros Hne. unfold contains. split.
  - destruct (index 0 sub s) as [m|] eqn:Hi; [|discriminate]. intros _.
    apply index_correct1 in Hi. now apply (substring_occurs m _ s sub Hi).
  - intros (p & q & ->).
    destruct (index 0 sub (p +:+ sub +:+ q)) as [m|] eqn:Hi; [reflexivity|].
    exfalso. apply (index_correct3 0 (String.length p) sub _ Hi Hne); [lia|].
    apply substring_at.
Qed.

(** X16: the callee counts as interpolate exactly when the two strings
    "torch.nn.functional" and "interpolate" both occur somewhere in its
    qualified name: the test is by substring, so it does not ask where they
    stand, in which order, or whether "interpolate" is the whole function
    name. *)
Theorem interpolate_matched_by_substring (f : Function) :
  is_interpolate f = true <->
  occurs_in "torch.nn.functional" (qualifiedName (qualname f)) /\
  occurs_in "interpolate" (qualifiedName (qualname f)).
Proof.
  unfold is_interpolate. rewrite andb_true_iff.
  now rewrite !contains_occurs by discriminate.
Qed.

(** ** Calls that are inlined *)





Section Inlined.
Variable createFullScopeName : string -> string -> string.



End Inlined.

(** ** Splicing a body without blocks *)







Section Splice.
Variables (fuel graph cur : nat) (g : Graph) (w : World).
Hypothesis Hg : graphs w !! graph = Some g.
Hypothesis Hcur : is_Some (nodes w !! cur).





End Splice.



(** ** The scopes of inlined instructions *)



#[global] Instance extends_scoped_preorder s : PreOrder (extends_scoped s).
Proof.
  split.
  - intros w. repeat split; try reflexivity. intros x nd' Hn Hs. congruence.
  - intros a b c (Hn1 & Hb1 & Hg1 & Ha1) (Hn2 & Hb2 & Hg2 & Ha2).
    split; [etransitivity; eassumption|]. split; [etransitivity; eassumption|].
    split; [congruence|].
    intros x nd' Hx Hc. destruct (nodes b !! x) as [ndb|] eqn:Hb.
    + pose proof (lookup_weaken _ _ _ _ Hb Hn2) as Hc'.
      rewrite Hc in Hc'. injection Hc' as ->. exact (Ha1 x ndb Hx Hb).
    + exact (Ha2 x nd' Hb Hc).
Qed.



Section Scoped.
Variables (s : Scope) (L : gset nat) (graph : nat).






End Scoped.

(** ** The body of a callee without calls *)









(** ** Inlined calls *)

Section InlinedCalls.
Variable createFullScopeName : string -> string -> string.






Lemma inlined_call_is_call (fuel graph cur callee : nat) (w : World) (nd : Node) (cg : Graph)
    (entry : World) (leave : World -> World) :
  inlined_call createFullScopeName fuel w graph cur nd callee cg entry leave ->
  is_call nd = true.
Proof. intros [? ? ? ? ? Hk|? ? ? ? ? ? ? Hk]; unfold is_call; now rewrite Hk. Qed.




End InlinedCalls.

(** ** The further theorems at example graphs *)

Lemma resolved_name_ends_with_attribute_witness :
  exists p, "layers.3" = p +:+ "3" /\ (p = "" \/ ends_with "." p).
Proof.
  exact (resolved_name_ends_with_attribute 2 Example.container_call 3
           (mkNode "prim::CallMethod" [(2, 0); (100, 1)] [OtherType] (Some "forward")
              Example.blank [])
           (mkNode "prim::GetAttr" [(1, 0)] [Example.Sub] (Some "3") Example.blank [])
           (2, 0) "3" "layers.3" eq_refl eq_refl eq_refl eq_refl eq_refl).
Defined.

(** The walk of [Example.container_param] meets the unnamed container; an
    unnamed container beside the walk would not count. *)
Lemma resolver_failure_modes_witness :
  exists fuel r,
    (forall fuel', fuel <= fuel' ->
       GetCallNodeVariableName fuel' Example.container_param 3 = r) /\
    ((exists name, r = Ok name) \/ r = Throw MissingAttribute) /\
    (r = Throw MissingAttribute <-> meets_unnamed_container Example.container_param 3).
Proof.
  refine (resolver_failure_modes Example.container_param Example.param_rank 3
            (mkNode "prim::CallMethod" [(2, 0); (100, 1)] [OtherType] (Some "forward")
               Example.blank [])
            _ _ eq_refl eq_refl _).
  - refine (bool_decide_unpack _ _). vm_compute. exact I.
  - refine (bool_decide_unpack _ _). vm_compute. exact I.
  - discriminate.
Defined.

(** The scope of the call on element "3" of "layers". *)
Lemma call_scope_composes_witness :
  SetScopeGuardForCall Example.scope_name 2 0 3 Example.container_call =
    (Example.container_call, Ok (ScopePush Example.blank "pkg.Sub::layers.3")).
Proof.
  exact (proj1 (call_scope_composes Example.scope_name 2 0 3 Example.container_call
                  (mkNode "prim::CallMethod" [(2, 0); (100, 1)] [OtherType] (Some "forward")
                     Example.blank [])
                  (2, 0) Example.Sub (Example.name_of ["__torch__"; "pkg"; "Sub"])
                  (mkGraph 0 Example.blank)
                  eq_refl eq_refl eq_refl eq_refl eq_refl eq_refl)).
Defined.

(** The call of [Example.container_param] aborts the pass at the unnamed
    container. *)
Lemma unresolved_name_aborts_method_call_witness :
  visit Example.scope_name 2 (fun _ => mret tt) 0 3 Example.container_param =
    (Example.container_param, Throw MissingAttribute).
Proof.
  exact (proj1 (unresolved_name_aborts_method_call Example.scope_name 2 (fun _ => mret tt) 0 3
                  Example.container_param
                  (mkNode "prim::CallMethod" [(2, 0); (100, 1)] [OtherType] (Some "forward")
                     Example.blank [])
                  (2, 0) (Example.name_of ["__torch__"; "pkg"; "Sub"])
                  [("forward", Example.forward)] "forward" Example.forward MissingAttribute []
                  eq_refl eq_refl eq_refl eq_refl eq_refl eq_refl eq_refl)).
Defined.

Lemma ill_formed_function_call_aborts_witness :
  visit Example.scope_name 2 (fun _ => mret tt) 0 5 Sample.call_of_argument =
    (Sample.call_of_argument, Throw AssertionFailed).
Proof.
  refine (proj1 (ill_formed_function_call_aborts Example.scope_name 2 (fun _ => mret tt) 0 5
                   Sample.call_of_argument
                   (mkNode "prim::CallFunction" [(100, 0); (100, 1)] [OtherType] None
                      Example.blank [])
                   (mkNode "prim::Param" [] [FunctionType Example.helper; OtherType] None
                      Example.blank [])
                   (100, 0) [] eq_refl eq_refl eq_refl eq_refl _)).
  left. discriminate.
Defined.

Lemma builtin_callee_aborts_half_way_witness :
  exists w',
    visit Example.scope_name 2 (fun _ => mret tt) 0 5 Sample.builtin_call =
      (w', Throw AssertionFailed) /\
    nodes w' !! 5 =
      Some (mkNode "prim::CallFunction" [(100, 0)] [OtherType] None Example.blank []) /\
    nodes w' !! 4 = None.
Proof.
  destruct (builtin_callee_aborts_half_way Example.scope_name 2 (fun _ => mret tt) 0 5 4 0
              Sample.builtin_call
              (mkNode "prim::CallFunction" [(4, 0); (100, 0)] [OtherType] None
                 Example.blank [])
              (mkNode "prim::Constant" [] [FunctionType Sample.builtin] None Example.blank [])
              [(100, 0)] Sample.builtin
              eq_refl eq_refl eq_refl eq_refl eq_refl eq_refl eq_refl eq_refl eq_refl)
    as (w' & Hrun & Hcur & Hgone & _ & _).
  exists w'. split; [exact Hrun|]. split; [exact Hcur|].
  apply Hgone. vm_compute. reflexivity.
Defined.

(** [Sample.nested] under the scope "top": the instruction in the branch of
    the [If] is stamped as the others are. *)
Lemma call_free_block_only_rescoped_witness :
  exists w',
    functionCallSubstitution Example.scope_name 3 0
      (set_current_scope 0 (ScopeRoot "top") Sample.nested) = (w', Ok tt) /\
    scope <$> nodes w' !! 20 = Some (ScopeRoot "top") /\
    scope <$> nodes w' !! 100 = Some Example.blank.
Proof.
  destruct (call_free_block_only_rescoped Example.scope_name 3 0
              (mkGraph 0 (ScopeRoot "top"))
              (set_current_scope 0 (ScopeRoot "top") Sample.nested) 0 eq_refl eq_refl)
    as (w' & Hrun & _ & _ & Hnodes & _).
  exists w'. split; [exact Hrun|]. rewrite !Hnodes. split; vm_compute; reflexivity.
Defined.

(** [Sample.nested] from the top: the frame of the module [Top]. *)
Lemma call_free_graph_rescoped_witness :
  exists w',
    ONNXFunctionCallSubstitution Example.scope_name 3 0 Sample.nested = (w', Ok tt) /\
    graphs w' = graphs Sample.nested /\
    scope <$> nodes w' !! 20 = Some (ScopePush Example.blank "pkg.Top::").
Proof.
  destruct (call_free_graph_rescoped Example.scope_name 3 0 (mkGraph 0 Example.blank)
              (mkBlock 0 100 101 [1; 2; 3])
              (mkNode "prim::Param" [] [Example.Top; OtherType] None Example.blank [])
              Sample.nested eq_refl eq_refl eq_refl eq_refl)
    as (w' & Hrun & _ & Hgraphs & Hnodes & _).
  exists w'. split; [exact Hrun|]. split; [exact Hgraphs|].
  rewrite Hnodes. vm_compute. reflexivity.
Defined.

Lemma call_free_pass_idempotent_witness :
  exists w',
    ONNXFunctionCallSubstitution Example.scope_name 3 0 Sample.nested = (w', Ok tt) /\
    ONNXFunctionCallSubstitution Example.scope_name 3 0 w' = (w', Ok tt).
Proof.
  exact (call_free_pass_idempotent Example.scope_name 3 0 (mkGraph 0 Example.blank)
           (mkBlock 0 100 101 [1; 2; 3])
           (mkNode "prim::Param" [] [Example.Top; OtherType] None Example.blank [])
           Sample.nested eq_refl eq_refl eq_refl eq_refl).
Defined.

Lemma call_kind_asserted_witness :
  GetCallNodeVariableName 2 Example.container_call 2 = Throw AssertionFailed /\
  SetScopeGuardForCall Example.scope_name 2 0 2 Example.container_call =
    (Example.container_call, Throw AssertionFailed).
Proof.
  exact (call_kind_asserted Example.scope_name 2 0 2 Example.container_call
           (mkNode "prim::GetAttr" [(1, 0)] [Example.Sub] (Some "3") Example.blank [])
           eq_refl eq_refl).
Defined.

Lemma nameless_method_call_aborts_witness :
  visit Example.scope_name 2 (fun _ => mret tt) 0 3 Sample.nameless_call =
    (Sample.nameless_call, Throw MissingAttribute).
Proof.
  exact (proj1 (nameless_method_call_aborts Example.scope_name 2 (fun _ => mret tt) 0 3
                  Sample.nameless_call
                  (mkNode "prim::CallMethod" [(100, 0)] [OtherType] None Example.blank [])
                  [] eq_refl eq_refl eq_refl)).
Defined.

(** The call of [Example.function_call]: the body of [helper] keeps its blank
    scope and is inlined. *)
Lemma function_call_callee_own_scope_witness :
  visit Example.scope_name 3 (functionCallSubstitution Example.scope_name 3) 0 5
    Example.function_call =
  inlineCallTo 3 0 5 1
    (stamp Example.blank (visited 3 (detached Example.function_call 5 4 [(100, 1)]) 1)
       (detached Example.function_call 5 4 [(100, 1)])).
Proof.
  refine (function_call_callee_own_scope Example.scope_name 3 0 5 4 0 1 Example.function_call
            (mkNode "prim::CallFunction" [(4, 0); (100, 1)] [OtherType] None Example.blank [])
            (mkNode "prim::Constant" [] [FunctionType Example.helper] None Example.blank [])
            [(100, 1)] Example.helper (mkGraph 1 Example.blank)
            eq_refl eq_refl eq_refl eq_refl eq_refl eq_refl eq_refl eq_refl eq_refl eq_refl _).
  vm_compute. reflexivity.
Defined.

(** ** Inlined calls at the example graphs *)





